(** * euka-tracker: coverage propagation, tree building, radial layout, tiles

    A shallow embedding of the algorithmic core of the pipeline
    ([scripts/build_coverage.py], [pipeline/build_tree.py],
    [scripts/radial_layout.py], [scripts/build_tree_tiles.py],
    [pipeline/export_geojson.py], [scripts/build_tree_layout.py],
    [scripts/build_rank_statistics.py]) and the properties its
    specification states about it.

    Part I holds the definitions, one module per source file; Part II
    holds the lemmas and theorems of the specification; Part III holds
    further properties of the code. *)

From Stdlib Require Import ZArith QArith Qround Reals Lra Lia Floats.
From stdpp Require Import gmap strings list fin_maps sorting relations.

Open Scope Z_scope.

(* ===================================================================== *)
(** * Part I: definitions                                                 *)
(* ===================================================================== *)

(** ** [scripts/build_coverage.py] *)

Module Coverage.

Definition FULL : Z := 5.
Definition GENOME_ANNOTATION_ONLY : Z := 4.
Definition GENOME_READS_NO_ANNOTATION : Z := 3.
Definition GENOME_ONLY : Z := 2.
Definition READS_ONLY : Z := 1.
Definition NO_DATA : Z := 0.

(** [species_state]: the chain of early returns, in source order. *)
Definition species_state (has_assembly has_annotation has_reads : bool) : Z :=
  let asm := has_assembly in
  let ann := has_annotation in
  let reads := has_reads in
  if ann && reads then FULL
  else if ann && negb reads then GENOME_ANNOTATION_ONLY
  else if asm && negb ann && reads then GENOME_READS_NO_ANNOTATION
  else if asm && negb ann && negb reads then GENOME_ONLY
  else if negb asm && reads then READS_ONLY
  else NO_DATA.

(** The decision table of the specification, written rule by rule
    (first match wins); compared with [species_state] in Part II. *)
Definition decision_table (assembly annotation reads : bool) : Z :=
  match assembly, annotation, reads with
  | _, true, true => 5       (* annotation /\ reads *)
  | _, true, false => 4      (* annotation /\ ~reads *)
  | true, false, true => 3   (* assembly /\ ~annotation /\ reads *)
  | true, false, false => 2  (* assembly /\ ~annotation /\ ~reads *)
  | false, false, true => 1  (* ~assembly /\ reads *)
  | false, false, false => 0 (* otherwise *)
  end.

(** One row of the species matrix: [taxid] and the three flags. *)
Record matrix_row := MatrixRow {
  m_taxid : Z;
  m_has_assembly : bool;
  m_has_annotation : bool;
  m_has_reads : bool
}.

(** [load_species_matrix]: [result[tid] = species_state(...)] row after
    row, so a later row for the same taxid overwrites an earlier one. *)
Definition load_species_matrix (rows : list matrix_row) : gmap Z Z :=
  foldl (fun result row =>
           <[m_taxid row :=
               species_state (m_has_assembly row) (m_has_annotation row)
                             (m_has_reads row)]> result)
        ∅ rows.

(** The flags the matrix gives for a taxid: those of its last row, all
    false when it has none. *)
Definition flags_of (rows : list matrix_row) (tid : Z) : bool * bool * bool :=
  foldl (fun acc row =>
           if decide (m_taxid row = tid)
           then (m_has_assembly row, m_has_annotation row, m_has_reads row)
           else acc)
        (false, false, false) rows.

(** [d.get(k, NO_DATA)] on a state dictionary. *)
Definition get (state : gmap Z Z) (k : Z) : Z := default NO_DATA (state !! k).

(** [children.get(n, [])]. *)
Definition kids_of (children : gmap Z (list Z)) (n : Z) : list Z :=
  default [] (children !! n).

(** The children map: for every item [(c, p)] of [parents], create
    [children[p]] when absent and append [c]. *)
Definition add_child (children : gmap Z (list Z)) (cp : Z * Z) : gmap Z (list Z) :=
  let '(c, p) := cp in
  <[p := kids_of children p ++ [c]]> children.

Definition build_children (parents : gmap Z Z) : gmap Z (list Z) :=
  foldl add_child ∅ (map_to_list parents).

(** [for c in children.get(n, []): if c not in seen: stack.append(c)].
    The Python list used as a stack is kept top first: [stack.pop()] takes
    the head and [stack.append] conses. *)
Definition push_kids (seen : gset Z) (stack : list Z) (kids : list Z) : list Z :=
  foldl (fun st c => if decide (c ∈ seen) then st else c :: st) stack kids.

(** The [while stack:] loop.  Every iteration pops one element; [fuel]
    bounds the number of iterations and [None] means it ran out. *)
Fixpoint visit (fuel : nat) (children : gmap Z (list Z))
    (stack : list Z) (seen : gset Z) (order : list Z) : option (list Z) :=
  match fuel with
  | O => None
  | S fuel' =>
      match stack with
      | [] => Some order
      | n :: stack' =>
          if decide (n ∈ seen) then visit fuel' children stack' seen order
          else
            let seen' := {[n]} ∪ seen in
            let order' := order ++ [n] in
            visit fuel' children (push_kids seen' stack' (kids_of children n))
                  seen' order'
      end
  end.

(** [max(...)] of a non-empty sequence. *)
Definition max_of (x : Z) (xs : list Z) : Z := foldl Z.max x xs.

(** One iteration of [for n in reversed(order)]. *)
Definition lift_state (children : gmap Z (list Z)) (state : gmap Z Z) (n : Z)
    : gmap Z Z :=
  match kids_of children n with
  | [] => state
  | c :: cs =>
      let best := max_of (get state c) (get state <$> cs) in
      <[n := Z.max (get state n) best]> state
  end.

(** Iterations that always suffice for [visit]: one per push, and there
    is at most one push per root and per child entry. *)
Definition visit_fuel (children : gmap Z (list Z)) (stack : list Z) : nat :=
  S (length stack + sum_list_with (fun pk => length pk.2) (map_to_list children)).

Definition propagate_states (species_states : gmap Z Z) (parents : gmap Z Z)
    (all_taxids : gset Z) : option (gmap Z Z) :=
  let state : gmap Z Z :=
    set_to_map (fun tid => (tid, get species_states tid)) all_taxids in
  let children := build_children parents in
  let roots := all_taxids ∖ dom parents in
  let stack := reverse (elements roots) in
  order ← visit (visit_fuel children stack) children stack ∅ [];
  Some (foldl (lift_state children) state (reverse order)).

(** [main]: states from the species matrix, then propagation. *)
Definition coverage (rows : list matrix_row) (parents : gmap Z Z)
    (all_taxids : gset Z) : option (gmap Z Z) :=
  propagate_states (load_species_matrix rows) parents all_taxids.

(** A node descends from a root of the traversal: the roots are the
    taxids without a parent entry. *)
Inductive descends (parents : gmap Z Z) (all_taxids : gset Z) : Z -> Prop :=
  | descends_root r :
      r ∈ all_taxids -> parents !! r = None -> descends parents all_taxids r
  | descends_child c p :
      parents !! c = Some p -> descends parents all_taxids p ->
      descends parents all_taxids c.

(** A rooted tree (or forest): every taxid descends from a root. *)
Definition rooted (parents : gmap Z Z) (all_taxids : gset Z) : Prop :=
  (forall c p, parents !! c = Some p -> c ∈ all_taxids /\ p ∈ all_taxids) /\
  (forall n, n ∈ all_taxids -> descends parents all_taxids n).

(** Child entries of the nodes not seen yet: what may still be pushed. *)
Definition pending (children : gmap Z (list Z)) (seen : gset Z) : nat :=
  sum_list_with (fun pk : Z * list Z =>
                   if decide (pk.1 ∈ seen) then O else length pk.2)
                (map_to_list children).

(** What the loop of the traversal maintains: [seen] is the set of
    [order]; whatever was pushed or seen is a root or has a seen parent;
    the children of a visited node come later in [order] or are still
    waiting unseen on the stack; every root has been pushed. *)
Definition visit_inv (parents : gmap Z Z) (roots : gset Z)
    (stack : list Z) (seen : gset Z) (order : list Z) : Prop :=
  NoDup order /\
  (forall x, x ∈ seen <-> x ∈ order) /\
  (forall x, x ∈ stack \/ x ∈ seen ->
     x ∈ roots \/ exists p, parents !! x = Some p /\ p ∈ seen) /\
  (forall o1 n o2 c, order = o1 ++ n :: o2 -> parents !! c = Some n ->
     c ∈ o2 \/ (c ∈ stack /\ c ∉ seen)) /\
  (forall r, r ∈ roots -> r ∈ stack \/ r ∈ seen).

End Coverage.

(** ** [pipeline/build_tree.py] *)

Module TreeBuilder.

(** A data line of the hierarchy TSV after splitting and stripping:
    parent id, id, name and rank. *)
Record edge_row := EdgeRow {
  e_parent : string;
  e_child : string;
  e_name : string;
  e_rank : string
}.

(** The recursive dict [{"id", "name", "rank", "children"}]. *)
Inductive tree : Type :=
  | Node (id name rank : string) (children : list tree).

Definition tree_id (t : tree) : string := let 'Node id _ _ _ := t in id.
Definition tree_children (t : tree) : list tree :=
  let 'Node _ _ _ children := t in children.

(** How a call of [build_tree] ends: with its dictionary
    [{"tree", "nodes", "root_id"}], or with one of the exceptions it can
    raise. *)
Inductive outcome : Type :=
  | Built (tree_ : tree) (nodes : gmap string (string * string)) (root_id : string)
  | ValueError (root_id : string)   (* root_id ... not found in hierarchy *)
  | IndexError                      (* sorted(roots)[0] on no roots *)
  | RecursionError.                 (* make_node deeper than the limit *)

(** [sorted(...)] on strings.  Equal strings are indistinguishable, so any
    sort gives the result of Python's. *)
Fixpoint insert_sorted (s : string) (l : list string) : list string :=
  match l with
  | [] => [s]
  | h :: t => if String.leb s h then s :: l else h :: insert_sorted s t
  end.

Definition sorted (l : list string) : list string := foldr insert_sorted [] l.

Definition node_info (rows : list edge_row) : gmap string (string * string) :=
  foldl (fun info r => <[e_child r := (e_name r, e_rank r)]> info) ∅ rows.

Definition all_ids (rows : list edge_row) : gset string :=
  list_to_set (e_child <$> rows)
  ∪ list_to_set (filter (fun p => p <> "") (e_parent <$> rows)).

(** [children.get(nid, [])]. *)
Definition children_of (children : gmap string (list string)) (nid : string)
    : list string :=
  default [] (children !! nid).

(** The loop over the edges, on the pair [(roots, children)]. *)
Definition add_edge (ids : gset string)
    (acc : gset string * gmap string (list string)) (r : edge_row)
    : gset string * gmap string (list string) :=
  let '(roots, children) := acc in
  let parent := e_parent r in
  let child := e_child r in
  if bool_decide (parent = "0" \/ parent = "") || bool_decide (parent ∉ ids)
  then ({[child]} ∪ roots, children)
  else (roots, <[parent := children_of children parent ++ [child]]> children).

Definition roots_and_children (rows : list edge_row)
    : gset string * gmap string (list string) :=
  let '(roots, children) := foldl (add_edge (all_ids rows)) (∅, ∅) rows in
  if bool_decide (roots = ∅)
  then
    (* fallback: node that is never a child *)
    let children_set : gset string :=
      list_to_set (concat (snd <$> map_to_list children)) in
    (all_ids rows ∖ children_set, children)
  else (roots, children).

Definition children_map (rows : list edge_row) : gmap string (list string) :=
  (roots_and_children rows).2.

(** [make_node], with the depth of the recursion bounded by [limit]
    (the interpreter's recursion limit); [None] when it is exceeded. *)
Fixpoint make_node (limit : nat) (info : gmap string (string * string))
    (children : gmap string (list string)) (nid : string) : option tree :=
  match limit with
  | O => None
  | S limit' =>
      kids ← mapM (make_node limit' info children)
                  (sorted (children_of children nid));
      Some (Node nid
                 (default nid (fst <$> info !! nid))
                 (default "no rank" (snd <$> info !! nid))
                 kids)
  end.

Definition build_tree (limit : nat) (rows : list edge_row)
    (root_id : option string) : outcome :=
  let info := node_info rows in
  let ids := all_ids rows in
  let '(roots, children) := roots_and_children rows in
  let chosen : outcome + string :=
    match root_id with
    | Some root_id =>
        if bool_decide (root_id ∉ ids) then inl (ValueError root_id)
        else inr root_id
    | None =>
        match elements roots with
        | [r] => inr r
        | rs =>
            match sorted rs with
            | [] => inl IndexError
            | r :: _ => inr r
            end
        end
    end in
  match chosen with
  | inl raised => raised
  | inr root_id =>
      match make_node limit info children root_id with
      | Some t => Built t info root_id
      | None => RecursionError
      end
  end.



(** Three data lines: 2759 under the external parent 1, 33154 and 33090
    under 2759. *)
Definition small_hierarchy : list edge_row :=
  [EdgeRow "1" "2759" "Eukaryota" "domain";
   EdgeRow "2759" "33154" "Opisthokonta" "clade";
   EdgeRow "2759" "33090" "Viridiplantae" "kingdom"].


End TreeBuilder.

(** ** [scripts/radial_layout.py] *)

(** The formulas of the layout are embedded in exact real arithmetic: a
    Python float operation is read as the real operation it rounds. *)
Module Layout.

Local Open Scope R_scope.

Definition ROOT_X : R := -6.0.
Definition ROOT_Y : R := 9.660254 - 10.0.
Definition ROOT_ALPHA : R := 150.0.
Definition ROOT_RAY : R := 10.0.
Definition ZOOM_CONST : R := 30.0.

Definition _rad (deg : R) : R := deg * PI / 180.0.

(** [math.log2]. *)
Definition log2 (v : R) : R := ln v / ln 2.

(** [sum(...)]: from 0, left to right. *)
Definition Rsum (l : list R) : R := foldl Rplus 0 l.

(** A node dict on entry: its id, the key ["nbdesc"] when it is already
    there, and its children.  [build_tree] makes nodes without it. *)
Inductive node : Type :=
  | Nd (id : string) (nbdesc : option Z) (children : list node).

Definition node_children (nd : node) : list node :=
  let 'Nd _ _ children := nd in children.

Fixpoint of_tree (t : TreeBuilder.tree) : node :=
  match t with
  | TreeBuilder.Node id _ _ children => Nd id None (of_tree <$> children)
  end.

(** [_count_descendants]: the cached value when present, else one plus
    the counts of the children.  The cache only stores what this function
    returns, so the count a node ends up with is this value. *)
Fixpoint _count_descendants (nd : node) : Z :=
  match nd with
  | Nd _ (Some n) _ => n
  | Nd _ None children =>
      foldl (fun n c => (n + _count_descendants c)%Z) 1%Z children
  end.

(** What the layout gives a node: position, angle, ray, zoom threshold. *)
Record frame := Frame {
  f_x : R;
  f_y : R;
  f_alpha : R;
  f_ray : R;
  f_zoomview : Z
}.

Inductive lnode : Type :=
  | LNode (id : string) (nbdesc : Z) (fr : frame) (children : list lnode).

Definition l_id (t : lnode) : string := let 'LNode id _ _ _ := t in id.
Definition l_frame (t : lnode) : frame := let 'LNode _ _ fr _ := t in fr.
Definition l_children (t : lnode) : list lnode :=
  let 'LNode _ _ _ children := t in children.
Definition l_ray (t : lnode) : R := f_ray (l_frame t).

(** Angle allocation: the half-angle [ang] of each child, from the
    descendant counts of the children. *)
Definition angle_allocation (descs : list Z) : list R :=
  let tot := Rsum ((fun d => R_sqrt.sqrt (IZR d)) <$> descs) in
  let tot := if Rle_dec tot 0 then 1.0 else tot in
  (fun d => 180.0 * (R_sqrt.sqrt (IZR d) / tot) / 2.0) <$> descs.

(** Special single-child cases; [nbdesc] is the count of the node that
    is being laid out. *)
Definition special_case (n_children : nat) (nbdesc : Z) : Z :=
  if (n_children =? 1)%nat && (1 <? nbdesc)%Z then 1%Z
  else if (n_children =? 1)%nat && (nbdesc =? 1)%Z then 2%Z
  else 0%Z.

(** Child ray. *)
Definition child_ray (special : Z) (ray ang : R) : R :=
  if (special =? 1)%Z then ray - (ray * 20) / 100
  else if (special =? 2)%Z then ray - (ray * 50) / 100
  else
    let tan_ang := sin (_rad ang) / cos (_rad ang) in
    (ray * tan_ang) / (1.0 + tan_ang).

(** Cumulative angles. *)
Definition ang_doubled (angles : list R) : list R :=
  a ← angles; [a; a].

Fixpoint cumsum (s : R) (l : list R) : list R :=
  match l with
  | [] => []
  | a :: l' => (s + a) :: cumsum (s + a) l'
  end.

Definition ang_final (alpha : R) (angles : list R) : list R :=
  let ang_cumsum := cumsum 0.0 (ang_doubled angles) in
  (fun i => nth (2 * i) ang_cumsum 0 - (90.0 - alpha)) <$> seq 0 (length angles).

(** Zoom threshold of a child from its ray. *)
Definition zoomview_of (ray : R) : Z :=
  let zv := if Rlt_dec 0 ray then log2 (ZOOM_CONST / ray) else 0 in
  Z.max 0 (Zceil zv).

(** The frames [_layout] writes into the children of a node with frame
    [fr] and count [nbdesc], from the counts of the children. *)
Definition child_frames (fr : frame) (nbdesc : Z) (descs : list Z) : list frame :=
  let ray := f_ray fr in
  let n_children := length descs in
  let angs := angle_allocation descs in
  let special := special_case n_children nbdesc in
  let rays := child_ray special ray <$> angs in
  zip_with
    (fun ch_ray ch_alpha =>
       let dist := ray - ch_ray in
       Frame (f_x fr + dist * cos (_rad ch_alpha))
             (f_y fr + dist * sin (_rad ch_alpha))
             ch_alpha ch_ray (zoomview_of ch_ray))
    rays (ang_final (f_alpha fr) angs).

(** [_layout]: the node keeps its frame, its children get theirs and are
    laid out in turn. *)
Fixpoint _layout (nd : node) (fr : frame) : lnode :=
  match nd with
  | Nd id _ children =>
      LNode id (_count_descendants nd) fr
        (zip_with _layout children
           (child_frames fr (_count_descendants nd)
              (_count_descendants <$> children)))
  end.

(** A record of [nodes]; the polygon and its centre are left out. *)
Record emitted := Emitted {
  n_id : string;
  n_x : R;
  n_y : R;
  n_alpha : R;
  n_ray : R;
  n_zoomview : Z;
  n_nbdesc : Z;
  n_tip : bool
}.

Fixpoint _collect (nd : lnode) : list emitted :=
  match nd with
  | LNode id nbdesc fr children =>
      Emitted id (f_x fr) (f_y fr) (f_alpha fr) (f_ray fr) (f_zoomview fr)
              nbdesc (bool_decide (children = []))
      :: concat (_collect <$> children)
  end.

(** [radial_layout]: the laid-out tree and the records it returns.  The
    root threshold is [log2] of a positive quotient, so [root_ray > 0]. *)
Definition layout_tree (tree : node) (root_x root_y root_alpha root_ray : R)
    : lnode :=
  _layout tree
    (Frame root_x root_y root_alpha root_ray
           (Z.max 0 (Zceil (log2 (ZOOM_CONST / root_ray))))).

Definition radial_layout (tree : node) (root_x root_y root_alpha root_ray : R)
    : list emitted * string :=
  let laid := layout_tree tree root_x root_y root_alpha root_ray in
  (_collect laid, l_id laid).


(** A well-formed tree: all descendant counts are at least 1. *)
Fixpoint well_formed (nd : node) : Prop :=
  match nd with
  | Nd _ _ children =>
      (1 <= _count_descendants nd)%Z /\
      foldr (fun c acc => well_formed c /\ acc) True children
  end.


(** A node with a leaf as its only child. *)
Definition single_leaf_child : node := Nd "R" None [Nd "L" None []].


End Layout.

(** The module constants of the layout as the interpreter evaluates
    them, in IEEE binary64. *)
Module Binary64.

Local Open Scope float_scope.

Definition ROOT_X : float := -6.0.
Definition ROOT_Y : float := 9.660254 - 10.0.
Definition ROOT_ALPHA : float := 150.0.
Definition ROOT_RAY : float := 10.0.

(** The frame [radial_layout] writes into the root with the defaults:
    [tree["x"] = root_x] and so on. *)
Definition root_frame : float * float * float * float :=
  (ROOT_X, ROOT_Y, ROOT_ALPHA, ROOT_RAY).

(** The ray of a child in the first special case. *)
Definition shrink_20 (ray : float) : float := ray - (ray * 20) / 100.

End Binary64.

(** ** [scripts/build_tree_tiles.py] *)

Module Tiles.

Definition MAX_NODES_PER_TILE : Z := 20000.
Definition ZOOM_LEVELS : list Z := [0; 1; 2; 3; 4; 5; 6; 7].

(** A row of the merged data frame, with the columns of [cols].  The
    float columns hold finite doubles, which are rationals. *)
Record row := Row {
  taxid : Z;
  parent_taxid : Z;
  x : Q;
  y : Q;
  depth : Z;
  coverage_state : Z;
  name : string;
  rank : string
}.

(** [len(df)]. *)
Definition len {A} (l : list A) : Z := Z.of_nat (length l).

(** [df.head(n)]: the first [n] rows, all but the last [-n] for [n < 0]. *)
Definition head {A} (n : Z) (l : list A) : list A :=
  if 0 <=? n then take (Z.to_nat n) l
  else take (length l - Z.to_nat (- n)) l.

(** [df.iloc[::step]], for [step >= 1]: rows 0, step, 2*step, ... *)
Fixpoint every_nth {A} (step skip : nat) (l : list A) : list A :=
  match l with
  | [] => []
  | r :: l' =>
      match skip with
      | O => r :: every_nth step (step - 1) l'
      | S k => every_nth step k l'
      end
  end.

Definition iloc_step {A} (step : Z) (l : list A) : list A :=
  every_nth (Z.to_nat step) 0 l.

Section TileRows.

(** [astype(np.int64)] truncates toward zero.  What the cast returns for
    a value outside the int64 range depends on the platform: it is left
    open as [cast_unrepresentable]. *)
Variable cast_unrepresentable : Q -> Z.

Definition INT64_MIN : Z := - 2 ^ 63.
Definition INT64_MAX : Z := 2 ^ 63 - 1.

Definition truncate (q : Q) : Z :=
  if Qle_bool 0 q then Qfloor q else Qceiling q.

Definition representable (q : Q) : bool :=
  (INT64_MIN <=? truncate q) && (truncate q <=? INT64_MAX).

Definition astype_int64 (q : Q) : Z :=
  if representable q then truncate q else cast_unrepresentable q.

(** [a.clip(lo, hi)] is [minimum(maximum(a, lo), hi)]. *)
Definition clip (lo hi v : Z) : Z := Z.min (Z.max v lo) hi.

(** [assign_tile_y], for one row and for the frame. *)
Definition tile_y (r : row) (z : Z) : Z :=
  let n_tiles := 2 ^ z in
  clip 0 (n_tiles - 1) (astype_int64 (y r * inject_Z n_tiles)%Q).

Definition assign_tile_y (df : list row) (z : Z) : list Z :=
  (fun r => tile_y r z) <$> df.

(** [df.loc[tile_y == ty]]. *)
Definition bucket (df : list row) (z ty : Z) : list row :=
  filter (fun r => tile_y r z = ty) df.

End TileRows.

(** [parent_to_children.get(tid, [])]. *)
Definition children_of (parent_to_children : gmap Z (list Z)) (tid : Z) : list Z :=
  default [] (parent_to_children !! tid).

(** The adjacency restricted to the tile: one pass over the rows. *)
Definition add_row (taxids : gset Z) (parent_to_children : gmap Z (list Z))
    (r : row) : gmap Z (list Z) :=
  let p := parent_taxid r in
  let c := taxid r in
  if (0 <=? p) && bool_decide (p ∈ taxids)
  then <[p := children_of parent_to_children p ++ [c]]> parent_to_children
  else parent_to_children.

(** The test of the [for tid in taxids] loop: does [tid] go into [keep]? *)
Definition kept (parent_to_children : gmap Z (list Z)) (tid : Z) : bool :=
  match children_of parent_to_children tid with
  | [] => true                       (* leaf *)
  | [child] =>
      let child_children := children_of parent_to_children child in
      negb (len child_children =? 1) (* chain head (next is branch/leaf) *)
  | _ :: _ :: _ => true              (* branch *)
  end.

Definition collapse_chains (tile_df : list row) : list row :=
  if len tile_df <=? MAX_NODES_PER_TILE then tile_df
  else
    let taxids : gset Z := list_to_set (taxid <$> tile_df) in
    let parent_to_children := foldl (add_row taxids) ∅ tile_df in
    let keep : gset Z :=
      foldl (fun keep tid =>
               if kept parent_to_children tid then {[tid]} ∪ keep else keep)
            ∅ (elements taxids) in
    filter (fun r => taxid r ∈ keep) tile_df.

(** [sort_values(["depth", "y"], kind="mergesort")]: a stable sort on the
    key (depth, y).  Stable insertion gives the same result as any other
    stable sort. *)
Definition key_le (a b : row) : bool :=
  (depth a <? depth b) || ((depth a =? depth b) && Qle_bool (y a) (y b)).

Fixpoint insert_row (r : row) (l : list row) : list row :=
  match l with
  | [] => [r]
  | h :: t => if key_le r h then r :: l else h :: insert_row r t
  end.

Definition sort_values (df : list row) : list row := foldr insert_row [] df.

(** The two sampling blocks of [aggregate_subtrees] are the same code on
    [with_data] and on [without_data]. *)
Definition sample (data : list row) (take_from : Z) : list row :=
  if take_from <=? 0 then []
  else if len data <=? take_from then data
  else
    let step := Z.max 1 (len data / take_from) in
    head take_from (iloc_step step data).

Definition aggregate_subtrees (tile_df : list row) (max_n : Z) : list row :=
  if len tile_df <=? max_n then tile_df
  else
    let df := sort_values tile_df in
    let structural := filter (fun r => depth r <= 8) df in
    let rest := filter (fun r => depth r > 8) df in
    if max_n <=? len structural then head max_n structural
    else
      let with_data := filter (fun r => coverage_state r > 0) rest in
      let without_data := filter (fun r => coverage_state r = 0) rest in
      let take_from_with := Z.min (len with_data) (max_n - len structural) in
      let take_from_without :=
        Z.max 0 (max_n - len structural - take_from_with) in
      let with_sample := sample with_data take_from_with in
      let without_sample := sample without_data take_from_without in
      let result := structural ++ with_sample ++ without_sample in
      head max_n result.

Definition lod_downsample (tile_df : list row) (max_n : Z) : list row :=
  if len tile_df <=? max_n then tile_df
  else if 100000 <? len tile_df then aggregate_subtrees tile_df max_n
  else
    let df := collapse_chains tile_df in
    aggregate_subtrees df max_n.

(** The body of the double loop of [build_tiles]: the tile written for
    zoom [z] and row [ty]. *)
Definition build_tile (cast_unrepresentable : Q -> Z) (df : list row)
    (z ty : Z) : list row :=
  lod_downsample (bucket cast_unrepresentable df z ty) MAX_NODES_PER_TILE.

Definition build_tiles (cast_unrepresentable : Q -> Z) (df : list row)
    : list (Z * Z * list row) :=
  z ← ZOOM_LEVELS;
  ty ← seqZ 0 (2 ^ z);
  [(z, ty, build_tile cast_unrepresentable df z ty)].

(** The rows of the tile whose parent is [p], in row order. *)
Definition child_rows (tile_df : list row) (p : Z) : list Z :=
  taxid <$> filter (fun r => parent_taxid r = p) tile_df.

(** A bucket over the budget that holds a chain below a branch point:
    the branch point 0 has the children 1 and 5; 1 -> 2 -> 3 -> 4 is the
    chain A -> B -> C -> D with the leaf 4; the other 20,000 rows are
    nodes whose parent 999999 lies in another bucket. *)
Definition plain_row (tid parent : Z) : row :=
  Row tid parent 0 (1 # 2) 0 0 "" "".

Definition chain_tile : list row :=
  [plain_row 0 999999; plain_row 1 0; plain_row 2 1; plain_row 3 2;
   plain_row 4 3; plain_row 5 0]
  ++ ((fun tid => plain_row tid 999999) <$> seqZ 6 20000).

End Tiles.

(** ** Notions used to state further properties of the trees *)

Module TreeShape.
Import TreeBuilder.

(** The ids of a tree, parent first (the order of a recursive walk). *)
Fixpoint tree_ids (t : tree) : list string :=
  match t with
  | Node id _ _ children => id :: concat (tree_ids <$> children)
  end.

(** [c] is a child of [p] in the adjacency. *)
Definition child_rel (children : gmap string (list string)) (p c : string)
    : Prop :=
  c ∈ children_of children p.

(** Ascending order on ids, as [sorted] sees them. *)
Definition id_le (a b : string) : Prop := String.leb a b = true.

(** At every node the ids of the children ascend. *)
Fixpoint children_ascend (t : tree) : Prop :=
  match t with
  | Node _ _ _ children =>
      StronglySorted id_le (tree_id <$> children) /\
      foldr (fun k acc => children_ascend k /\ acc) True children
  end.

(** The roots and the adjacency the loop over the edges leaves, before
    the fallback. *)
Definition loop_result (rows : list edge_row)
    : gset string * gmap string (list string) :=
  foldl (add_edge (all_ids rows)) (∅, ∅) rows.

(** A hierarchy whose only row is its own parent. *)
Definition self_parent : list edge_row := [EdgeRow "1" "1" "root" "no rank"].

End TreeShape.

(** ** Notions used to state further properties of the layout, and the
    polygon part of [scripts/radial_layout.py] *)

Module LayoutShape.
Import Layout.

Local Open Scope R_scope.


(** The ids of a node dict, parent first. *)
Fixpoint node_ids (nd : node) : list string :=
  match nd with
  | Nd id _ children => id :: concat (node_ids <$> children)
  end.







End LayoutShape.

(** ** [pipeline/export_geojson.py]: zoom thresholds, branch lines and
    polygon rings of the exported features *)

Module GeoJSON.
Import TreeBuilder Layout LayoutShape.

Definition REF : Z := 2.
Definition MINZOOM_OFFSET : Z := 2.

Definition _minzoom (zoomview : Z) : Z :=
  Z.max 0 (Z.min (zoomview - MINZOOM_OFFSET) 14).

(** The truth value of a str: false for the empty string only. *)
Definition truthy (s : string) : bool :=
  match s with
  | EmptyString => false
  | String _ _ => true
  end.

(** [collect_edges]: the (parent id, child id) pairs of a tree, each
    child's pair before the pairs below that child. *)
Fixpoint collect_edges (t : tree) : list (string * string) :=
  match t with
  | Node pid _ _ children =>
      concat ((fun child =>
                 (if truthy pid && truthy (tree_id child)
                  then [(pid, tree_id child)] else [])
                 ++ collect_edges child) <$> children)
  end.

(** [{str(n["id"]): n for n in nodes}]: a later record replaces an
    earlier one with the same id. *)
Definition nodes_by_id (nodes : list emitted) : gmap string emitted :=
  foldl (fun by_id n => <[n_id n := n]> by_id) ∅ nodes.

(** A branch line: the id of the child, the two end points, the zoom
    threshold of the child and its [tippecanoe:minzoom].  The label and
    the rank are left out. *)
Record branch_line := BranchLine {
  b_id : string;
  b_from : R * R;
  b_to : R * R;
  b_zoomview : Z;
  b_minzoom : Z
}.

(** The loop over the edges: an edge with an end that is not among the
    records is skipped. *)
Definition branch_lines (nodes : list emitted) (edges : list (string * string))
    : list branch_line :=
  let by_id := nodes_by_id nodes in
  omap (fun '(pid, cid) =>
          match by_id !! pid, by_id !! cid with
          | Some pn, Some cn =>
              let zv := n_zoomview cn in
              Some (BranchLine cid (n_x pn, n_y pn) (n_x cn, n_y cn)
                               zv (_minzoom zv))
          | _, _ => None
          end) edges.



End GeoJSON.

(** ** [scripts/build_tree_layout.py]: the subtree under a root *)

Module TreeLayout.
Import Coverage.

(** A row of the taxonomy frame: [parent_taxid] and [taxid]. *)
Record tax_row := TaxRow {
  t_parent_taxid : Z;
  t_taxid : Z
}.

(** The first loop of [extract_subtree]: for every row, create
    [children[p]] when absent and append [c]; the same step as in
    [propagate_states], over the rows of the frame. *)
Definition children_of_rows (df : list tax_row) : gmap Z (list Z) :=
  foldl add_child ∅ ((fun row => (t_taxid row, t_parent_taxid row)) <$> df).

(** [extract_subtree]: the traversal from [stack = [root]] is the loop
    of [propagate_states] ([visit], whose record of the order is not
    used here: [subtree] is the set of what it marks), then the
    restriction of the children lists to the subtree.  [None] would be a
    traversal that is out of fuel. *)
Definition extract_subtree (df : list tax_row) (root : Z)
    : option (gmap Z (list Z) * gset Z) :=
  let children := children_of_rows df in
  order ← visit (visit_fuel children [root]) children [root] ∅ [];
  let subtree : gset Z := list_to_set order in
  let sub_children : gmap Z (list Z) :=
    set_to_map (fun n => (n, filter (fun c => c ∈ subtree) (kids_of children n)))
               subtree in
  Some (sub_children, subtree).

(** A row of the frame makes [c] a child of [p]. *)
Definition row_edge (df : list tax_row) (p c : Z) : Prop :=
  TaxRow p c ∈ df.

(** What the traversal from [root] maintains: [seen] is the set of
    [order]; whatever was pushed or marked can be reached from the root;
    the root was pushed; the children of a marked node are marked or
    wait on the stack. *)
Definition reach_inv (children : gmap Z (list Z)) (root : Z)
    (stack : list Z) (seen : gset Z) (order : list Z) : Prop :=
  (forall x, x ∈ seen <-> x ∈ order) /\
  (forall x, x ∈ stack \/ x ∈ seen ->
     rtc (fun p c => c ∈ kids_of children p) root x) /\
  (root ∈ stack \/ root ∈ seen) /\
  (forall n c, n ∈ seen -> c ∈ kids_of children n -> c ∈ seen \/ c ∈ stack).

End TreeLayout.

(** ** [scripts/build_rank_statistics.py]: states and lineages *)

Module RankStats.

(** States ordered by "best" first. *)
Definition STATE_ORDER : list string :=
  ["fully_covered"; "genome_annotation_only"; "genome_reads_no_annotation";
   "genome_only"; "reads_only"; "no_data"].

(** [_classify_species]: the chain of early returns, in source order. *)
Definition _classify_species (has_assembly has_annotation has_reads : bool)
    : string :=
  let a := has_assembly in
  let b := has_annotation in
  let c := has_reads in
  if a && b && c then "fully_covered"
  else if a && b && negb c then "genome_annotation_only"
  else if a && negb b && c then "genome_reads_no_annotation"
  else if a && negb b && negb c then "genome_only"
  else if negb a && c then "reads_only"
  else "no_data".

(** [l.index(s)]: the first position of [s]; [None] stands for the
    ValueError of a missing item. *)
Fixpoint index (s : string) (l : list string) : option nat :=
  match l with
  | [] => None
  | x :: l' => if decide (x = s) then Some O else S <$> index s l'
  end.

(** An entry of [nodes]: parent id, rank and name. *)
Record tax_node := TaxNode {
  parent_id : Z;
  rank : string;
  name : string
}.

Definition target_ranks : list string :=
  ["phylum"; "class"; "order"; "family"; "genus"].

(** The loop of [get_lineage]: [while current and current not in seen].
    Every iteration follows one parent link; [fuel] bounds their number
    and [None] means it ran out. *)
Fixpoint lineage_loop (fuel : nat) (nodes : gmap Z tax_node) (current : Z)
    (seen : gset Z) (lineage : gmap string Z) : option (gmap string Z) :=
  match fuel with
  | O => None
  | S fuel' =>
      if bool_decide (current <> 0) && bool_decide (current ∉ seen) then
        let seen' := {[current]} ∪ seen in
        match nodes !! current with
        | None => Some lineage
        | Some node =>
            let lineage' :=
              if bool_decide (rank node ∈ target_ranks)
              then <[rank node := current]> lineage else lineage in
            lineage_loop fuel' nodes (parent_id node) seen' lineage'
        end
      else Some lineage
  end.

(** Iterations that always suffice: every iteration but the last marks
    a key of [nodes] that was not marked before. *)
Definition get_lineage (taxid : Z) (nodes : gmap Z tax_node)
    : option (gmap string Z) :=
  lineage_loop (S (size nodes)) nodes taxid ∅ ∅.

(** One step up: [p] is the parent [nodes] gives for [x]. *)
Definition parent_step (nodes : gmap Z tax_node) (x p : Z) : Prop :=
  exists node, nodes !! x = Some node /\ parent_id node = p.

(** What an entry [lineage[r] = t] is expected to be: [r] is one of the
    five ranks, [t] has rank [r], and [t] is [taxid] or an ancestor. *)
Definition lineage_entry (nodes : gmap Z tax_node) (taxid : Z)
    (r : string) (t : Z) : Prop :=
  r ∈ target_ranks /\
  (exists node, nodes !! t = Some node /\ rank node = r) /\
  rtc (parent_step nodes) taxid t.

End RankStats.

(* ===================================================================== *)
(** * Part II: lemmas and theorems                                        *)
(* ===================================================================== *)

Section CoverageFacts.
Import Coverage.

Example propagate_small :
  propagate_states {[3 := 5; 4 := 2]} {[2 := 1; 3 := 2; 4 := 1]} {[1; 2; 3; 4]}
  = Some {[1 := 5; 2 := 5; 3 := 5; 4 := 2]}.
Proof. vm_compute. reflexivity. Qed.

(** *** The species matrix *)

Lemma load_species_matrix_snoc rows row :
  load_species_matrix (rows ++ [row]) =
  <[m_taxid row := species_state (m_has_assembly row) (m_has_annotation row)
                                 (m_has_reads row)]> (load_species_matrix rows).
Proof. unfold load_species_matrix. by rewrite foldl_snoc. Qed.

Lemma flags_of_snoc rows row tid :
  flags_of (rows ++ [row]) tid =
  if decide (m_taxid row = tid)
  then (m_has_assembly row, m_has_annotation row, m_has_reads row)
  else flags_of rows tid.
Proof. unfold flags_of. by rewrite foldl_snoc. Qed.

Lemma get_load_species_matrix rows tid :
  get (load_species_matrix rows) tid =
  let '(a, b, r) := flags_of rows tid in species_state a b r.
Proof.
  induction rows as [|row rows IH] using rev_ind; [done|].
  rewrite load_species_matrix_snoc, flags_of_snoc. unfold get in *.
  destruct (decide (m_taxid row = tid)) as [->|Hne].
  - by rewrite lookup_insert_eq.
  - by rewrite lookup_insert_ne.
Qed.

(** *** The children map *)

Lemma kids_of_add_child children c p q x :
  x ∈ kids_of (add_child children (c, p)) q ↔
  x ∈ kids_of children q ∨ (x = c ∧ q = p).
Proof.
  unfold add_child, kids_of. destruct (decide (p = q)) as [->|Hne].
  - rewrite lookup_insert_eq. simpl. rewrite elem_of_app, list_elem_of_singleton.
    naive_solver.
  - rewrite lookup_insert_ne by done. naive_solver.
Qed.

Lemma kids_of_foldl_add_child l children q x :
  x ∈ kids_of (foldl add_child children l) q ↔
  x ∈ kids_of children q ∨ (x, q) ∈ l.
Proof.
  revert children. induction l as [|[c p] l IH]; intros children; cbn [foldl].
  - rewrite elem_of_nil. naive_solver.
  - rewrite IH, kids_of_add_child, elem_of_cons. naive_solver.
Qed.

Lemma kids_of_build_children parents p c :
  c ∈ kids_of (build_children parents) p ↔ parents !! c = Some p.
Proof.
  unfold build_children. rewrite kids_of_foldl_add_child, elem_of_map_to_list.
  unfold kids_of. rewrite lookup_empty. simpl. rewrite elem_of_nil. naive_solver.
Qed.

(** *** Pushing the children *)

Lemma elem_of_push_kids (seen : gset Z) stack kids x :
  x ∈ push_kids seen stack kids ↔ x ∈ stack ∨ (x ∈ kids ∧ x ∉ seen).
Proof.
  unfold push_kids. revert stack.
  induction kids as [|c kids IH]; intros stack; simpl.
  - rewrite elem_of_nil. naive_solver.
  - rewrite IH. destruct (decide (c ∈ seen)); rewrite ?elem_of_cons; naive_solver.
Qed.

Lemma length_push_kids seen stack kids :
  (length (push_kids seen stack kids) <= length stack + length kids)%nat.
Proof.
  unfold push_kids. revert stack.
  induction kids as [|c kids IH]; intros stack; simpl; [lia|].
  destruct (decide (c ∈ seen)).
  - specialize (IH stack). lia.
  - specialize (IH (c :: stack)). simpl in IH. lia.
Qed.

(** *** Termination of the traversal *)

Lemma pending_empty children :
  pending children ∅ =
  sum_list_with (fun pk : Z * list Z => length pk.2) (map_to_list children).
Proof.
  unfold pending. induction (map_to_list children) as [|pk l IH]; simpl; [done|].
  rewrite IH. destruct (decide (pk.1 ∈ (∅ : gset Z))); [set_solver|done].
Qed.

Lemma pending_mark_list (l : list (Z * list Z)) (seen : gset Z) n ks :
  n ∉ seen -> (n, ks) ∈ l ->
  (sum_list_with (fun pk : Z * list Z =>
       if decide (pk.1 ∈ {[n]} ∪ seen) then O else length pk.2) l
   + length ks
   <= sum_list_with (fun pk : Z * list Z =>
       if decide (pk.1 ∈ seen) then O else length pk.2) l)%nat.
Proof.
  intros Hn. induction l as [|pk l IH]; intros Hin.
  - by apply elem_of_nil in Hin.
  - simpl. apply elem_of_cons in Hin as [<-|Hin].
    + simpl. rewrite decide_True by set_solver. rewrite decide_False by done.
      assert (sum_list_with (fun pk : Z * list Z =>
                if decide (pk.1 ∈ {[n]} ∪ seen) then O else length pk.2) l
              <= sum_list_with (fun pk : Z * list Z =>
                if decide (pk.1 ∈ seen) then O else length pk.2) l)%nat; [|lia].
      clear. induction l as [|qk l IH]; simpl; [lia|].
      destruct (decide (qk.1 ∈ {[n]} ∪ seen)), (decide (qk.1 ∈ seen)); try lia.
      set_solver.
    + specialize (IH Hin).
      destruct (decide (pk.1 ∈ {[n]} ∪ seen)), (decide (pk.1 ∈ seen)); try lia.
      set_solver.
Qed.

Lemma pending_weaken children seen n :
  (pending children ({[n]} ∪ seen) <= pending children seen)%nat.
Proof.
  unfold pending. induction (map_to_list children) as [|qk l IH]; simpl; [lia|].
  destruct (decide (qk.1 ∈ {[n]} ∪ seen)), (decide (qk.1 ∈ seen)); try lia.
  set_solver.
Qed.

Lemma pending_mark children seen n :
  n ∉ seen ->
  (pending children ({[n]} ∪ seen) + length (kids_of children n)
   <= pending children seen)%nat.
Proof.
  intros Hn. unfold kids_of. destruct (children !! n) as [ks|] eqn:Hk; simpl.
  - apply pending_mark_list; [done|]. by apply elem_of_map_to_list.
  - pose proof (pending_weaken children seen n). lia.
Qed.

Lemma visit_terminates children fuel stack seen order :
  (length stack + pending children seen < fuel)%nat ->
  is_Some (visit fuel children stack seen order).
Proof.
  revert stack seen order.
  induction fuel as [|fuel IH]; intros stack seen order Hlt; [lia|].
  simpl. destruct stack as [|n stack]; [by eexists|].
  simpl in Hlt. destruct (decide (n ∈ seen)) as [Hin|Hin].
  - apply IH. lia.
  - apply IH.
    pose proof (length_push_kids ({[n]} ∪ seen) stack (kids_of children n)).
    pose proof (pending_mark children seen n Hin). lia.
Qed.

(** *** The traversal visits parents before children *)

Section Traversal.
Variable parents : gmap Z Z.
Variable all_taxids : gset Z.

Let children := build_children parents.
Let roots : gset Z := all_taxids ∖ dom parents.

Lemma snoc_split (order o1 o2 : list Z) n m :
  order ++ [n] = o1 ++ m :: o2 ->
  (o2 = [] /\ o1 = order /\ m = n) \/
  (exists o2', o2 = o2' ++ [n] /\ order = o1 ++ m :: o2').
Proof.
  intros Heq. destruct o2 as [|x o2 _] using rev_ind.
  - left. apply app_inj_tail in Heq. naive_solver.
  - right. exists o2. split; [|].
    + change (o1 ++ m :: o2 ++ [x]) with (o1 ++ (m :: o2) ++ [x]) in Heq.
      rewrite app_assoc in Heq. apply app_inj_tail in Heq. naive_solver.
    + change (o1 ++ m :: o2 ++ [x]) with (o1 ++ (m :: o2) ++ [x]) in Heq.
      rewrite app_assoc in Heq. apply app_inj_tail in Heq. naive_solver.
Qed.

Lemma unseen_kids stack seen order n c :
  visit_inv parents roots (n :: stack) seen order -> n ∉ seen ->
  parents !! c = Some n -> c ∉ seen /\ c <> n.
Proof.
  intros (_ & _ & Hpar & _ & _) Hn Hc.
  assert (c ∈ n :: stack \/ c ∈ seen -> False) as Hno.
  { intros Hin. destruct (Hpar c Hin) as [Hr|(p & Hp & Hps)].
    - unfold roots in Hr. apply elem_of_difference in Hr as [_ Hr].
      apply Hr, elem_of_dom. by eexists.
    - congruence. }
  split.
  - intros ?. apply Hno. by right.
  - intros ->. apply Hno. left. apply elem_of_cons. by left.
Qed.

Lemma visit_inv_skip n stack seen order :
  visit_inv parents roots (n :: stack) seen order -> n ∈ seen ->
  visit_inv parents roots stack seen order.
Proof.
  intros (Hnd & Hseen & Hpar & Hkids & Hroots) Hn.
  repeat split; try done.
  - apply Hseen.
  - apply Hseen.
  - intros x [Hx|Hx]; apply Hpar; [left; apply elem_of_cons; by right|by right].
  - intros o1 m o2 c Ho Hc. destruct (Hkids o1 m o2 c Ho Hc) as [?|[Hin Hns]].
    + by left.
    + right. split; [|done]. apply elem_of_cons in Hin as [->|Hin]; done.
  - intros r Hr. destruct (Hroots r Hr) as [Hin|?]; [|by right].
    apply elem_of_cons in Hin as [->|Hin]; [by right|by left].
Qed.

Lemma visit_inv_step n stack seen order :
  visit_inv parents roots (n :: stack) seen order -> n ∉ seen ->
  visit_inv parents roots (push_kids ({[n]} ∪ seen) stack (kids_of children n))
            ({[n]} ∪ seen) (order ++ [n]).
Proof.
  intros Hinv Hn.
  pose proof (fun c => unseen_kids _ _ _ _ c Hinv Hn) as Hfresh.
  destruct Hinv as (Hnd & Hseen & Hpar & Hkids & Hroots).
  repeat split.
  - apply NoDup_app. repeat split; [done| |apply NoDup_singleton].
    intros x Hx ->%list_elem_of_singleton. by apply Hn, Hseen.
  - intros Hx. apply elem_of_app. apply elem_of_union in Hx as [Hx|Hx].
    + right. set_solver.
    + left. by apply Hseen.
  - intros [Hx|Hx]%elem_of_app; apply elem_of_union.
    + right. by apply Hseen.
    + left. set_solver.
  - intros x [Hx|Hx].
    + apply elem_of_push_kids in Hx as [Hx|[Hx _]].
      * destruct (Hpar x) as [?|(p & ? & ?)]; [left; apply elem_of_cons; by right|by left|].
        right. exists p. split; [done|]. apply elem_of_union. by right.
      * right. exists n. split; [by apply kids_of_build_children|]. set_solver.
    + apply elem_of_union in Hx as [Hx|Hx].
      * apply elem_of_singleton in Hx as ->.
        destruct (Hpar n) as [?|(p & ? & ?)]; [left; apply elem_of_cons; by left|by left|].
        right. exists p. split; [done|]. apply elem_of_union. by right.
      * destruct (Hpar x) as [?|(p & ? & ?)]; [by right|by left|].
        right. exists p. split; [done|]. apply elem_of_union. by right.
  - intros o1 m o2 c Ho Hc.
    apply snoc_split in Ho as [(-> & -> & ->)|(o2' & -> & ->)].
    + right. destruct (Hfresh c Hc) as [Hcs Hcn]. split.
      * apply elem_of_push_kids. right. split; [by apply kids_of_build_children|].
        set_solver.
      * set_solver.
    + destruct (Hkids o1 m o2' c eq_refl Hc) as [Hin|[Hin Hns]].
      * left. apply elem_of_app. by left.
      * destruct (decide (c = n)) as [->|Hne].
        -- left. apply elem_of_app. right. by apply list_elem_of_singleton.
        -- right. split; [|set_solver].
           apply elem_of_push_kids. left.
           apply elem_of_cons in Hin as [?|?]; done.
  - intros r Hr. destruct (Hroots r Hr) as [Hin|?].
    + apply elem_of_cons in Hin as [->|Hin].
      * right. set_solver.
      * left. apply elem_of_push_kids. by left.
    + right. set_solver.
Qed.

Lemma visit_inv_final fuel stack seen order o :
  visit_inv parents roots stack seen order ->
  visit fuel children stack seen order = Some o ->
  exists seen', visit_inv parents roots [] seen' o.
Proof.
  revert stack seen order.
  induction fuel as [|fuel IH]; intros stack seen order Hinv Hrun; [done|].
  simpl in Hrun. destruct stack as [|n stack].
  - injection Hrun as <-. by exists seen.
  - destruct (decide (n ∈ seen)) as [Hin|Hin].
    + eapply IH; [|exact Hrun]. by eapply visit_inv_skip.
    + eapply IH; [|exact Hrun]. by apply visit_inv_step.
Qed.

Lemma visit_inv_init :
  visit_inv parents roots (reverse (elements roots)) ∅ [].
Proof.
  repeat split.
  - apply NoDup_nil_2.
  - set_solver.
  - intros Hx. by apply elem_of_nil in Hx.
  - intros x [Hx|Hx]; [|set_solver].
    left. by apply elem_of_reverse, elem_of_elements in Hx.
  - intros o1 n o2 c Ho. by destruct o1.
  - intros r Hr. left. by apply elem_of_reverse, elem_of_elements.
Qed.

(** The traversal ends, and in its order every node comes before its
    children; every node that descends from a root is in it. *)
Lemma visit_order :
  exists order,
    visit (visit_fuel children (reverse (elements roots))) children
          (reverse (elements roots)) ∅ [] = Some order /\
    NoDup order /\
    (forall o1 n o2 c, order = o1 ++ n :: o2 -> parents !! c = Some n -> c ∈ o2) /\
    (forall n, descends parents all_taxids n -> n ∈ order).
Proof.
  destruct (visit_terminates children
              (visit_fuel children (reverse (elements roots)))
              (reverse (elements roots)) ∅ []) as [order Hrun].
  { unfold visit_fuel. rewrite pending_empty. lia. }
  exists order. split; [done|].
  destruct (visit_inv_final _ _ _ _ _ visit_inv_init Hrun)
    as (seen' & Hnd & Hseen & _ & Hkids & Hroots).
  assert (forall o1 n o2 c, order = o1 ++ n :: o2 -> parents !! c = Some n -> c ∈ o2)
    as Hafter.
  { intros o1 n o2 c Ho Hc. destruct (Hkids o1 n o2 c Ho Hc) as [?|[Hin _]]; [done|].
    by apply elem_of_nil in Hin. }
  repeat split; [done|done|].
  intros n Hn. induction Hn as [r Hr Hnone|c p Hc Hp IH].
  - destruct (Hroots r) as [Hin|Hin].
    + unfold roots. apply elem_of_difference. split; [done|].
      by apply not_elem_of_dom.
    + by apply elem_of_nil in Hin.
    + by apply Hseen.
  - apply list_elem_of_split in IH as (o1 & o2 & ->).
    apply elem_of_app. right. apply elem_of_cons. right.
    by eapply Hafter.
Qed.

End Traversal.

(** *** Lifting the states, leaves first *)

Lemma max_of_lower x xs : x <= max_of x xs.
Proof.
  unfold max_of. revert x. induction xs as [|y xs IH]; intros x; simpl; [lia|].
  specialize (IH (Z.max x y)). lia.
Qed.

Lemma max_of_upper x xs y : y ∈ xs -> y <= max_of x xs.
Proof.
  unfold max_of. revert x. induction xs as [|z xs IH]; intros x Hy; simpl.
  - by apply elem_of_nil in Hy.
  - apply elem_of_cons in Hy as [->|Hy].
    + pose proof (max_of_lower (Z.max x z) xs) as Hl. unfold max_of in Hl. lia.
    + by apply IH.
Qed.

Lemma get_lift_state_ne children state n m :
  m <> n -> get (lift_state children state n) m = get state m.
Proof.
  intros Hne. unfold lift_state. destruct (kids_of children n); [done|].
  unfold get at 1. by rewrite lookup_insert_ne.
Qed.

Lemma get_lift_state_kid children state n c :
  c ∈ kids_of children n -> get state c <= get (lift_state children state n) n.
Proof.
  intros Hc. unfold lift_state. destruct (kids_of children n) as [|k ks].
  - by apply elem_of_nil in Hc.
  - unfold get at 2. rewrite lookup_insert_eq. simpl.
    apply elem_of_cons in Hc as [->|Hc].
    + pose proof (max_of_lower (get state k) (get state <$> ks)). lia.
    + pose proof (max_of_upper (get state k) (get state <$> ks) (get state c)) as Hu.
      assert (get state c ∈ get state <$> ks) as Hin.
      { apply list_elem_of_fmap. by exists c. }
      specialize (Hu Hin). lia.
Qed.

Lemma lookup_foldl_lift_state_leaf children state l n :
  kids_of children n = [] ->
  foldl (lift_state children) state l !! n = state !! n.
Proof.
  intros Hleaf. revert state. induction l as [|m l IH]; intros state; [done|].
  cbn [foldl]. rewrite IH. unfold lift_state.
  destruct (kids_of children m) as [|k ks] eqn:Hk; [done|].
  apply lookup_insert_ne. intros ->. by rewrite Hleaf in Hk.
Qed.

Lemma dom_foldl_lift_state children state l n :
  is_Some (state !! n) -> is_Some (foldl (lift_state children) state l !! n).
Proof.
  revert state. induction l as [|m l IH]; intros state Hn; [done|].
  cbn [foldl]. apply IH. unfold lift_state.
  destruct (kids_of children m); [done|].
  destruct (decide (m = n)) as [->|Hne].
  - rewrite lookup_insert_eq. by eexists.
  - by rewrite lookup_insert_ne.
Qed.

(** Processing a sequence in which the children of each node come before
    it leaves every processed node at least as high as its children. *)
Lemma foldl_lift_state_dominates children state (l : list Z) :
  NoDup l ->
  (forall l1 n l2 c, l = l1 ++ n :: l2 -> c ∈ kids_of children n -> c ∈ l1) ->
  forall n c, n ∈ l -> c ∈ kids_of children n ->
    get (foldl (lift_state children) state l) c
    <= get (foldl (lift_state children) state l) n.
Proof.
  induction l as [|m l IH] using rev_ind; intros Hnd Hbefore n c Hn Hc.
  - by apply elem_of_nil in Hn.
  - apply NoDup_app in Hnd as (Hnd & Hfresh & _).
    assert (m ∉ l) as Hm.
    { intros Hin. apply (Hfresh m Hin). by apply list_elem_of_singleton. }
    rewrite foldl_snoc.
    assert (forall l1 k l2 d, l = l1 ++ k :: l2 -> d ∈ kids_of children k -> d ∈ l1)
      as Hbefore'.
    { intros l1 k l2 d -> Hd. apply (Hbefore l1 k (l2 ++ [m]) d); [|done].
      by rewrite <- app_assoc. }
    apply elem_of_app in Hn as [Hn|Hn].
    + assert (c ∈ l) as Hcl.
      { apply list_elem_of_split in Hn as (l1 & l2 & ->).
        apply elem_of_app. left. by eapply Hbefore'. }
      rewrite !get_lift_state_ne by (intros ->; done).
      by apply IH.
    + apply list_elem_of_singleton in Hn as ->.
      assert (c ∈ l) as Hcl.
      { apply (Hbefore l m [] c); [|done]. done. }
      rewrite (get_lift_state_ne _ _ m c) by (intros ->; done).
      by apply get_lift_state_kid.
Qed.

Lemma lookup_initial_state (species_states : gmap Z Z) (all_taxids : gset Z) n :
  n ∈ all_taxids ->
  (set_to_map (fun tid => (tid, get species_states tid)) all_taxids : gmap Z Z) !! n
  = Some (get species_states n).
Proof.
  intros Hn. apply lookup_set_to_map; [naive_solver|]. by exists n.
Qed.

(** C5: for all eight combinations of the three flags, [species_state]
    returns the state of the six-rule decision table (annotation and reads
    give 5, annotation without reads 4, assembly and reads without
    annotation 3, assembly alone 2, reads alone 1, otherwise 0). *)
Theorem species_state_decision_table :
  forall has_assembly has_annotation has_reads : bool,
    species_state has_assembly has_annotation has_reads
    = decision_table has_assembly has_annotation has_reads.
Proof. intros [] [] []; reflexivity. Qed.

(** C4: after coverage propagation over a rooted tree the run yields a
    state for every taxid in which every node is at least as high as each
    of its children, hence as their maximum, and every leaf has the
    classification of its three flags. *)
Theorem coverage_propagation_invariant
    (rows : list matrix_row) (parents : gmap Z Z) (all_taxids : gset Z) :
  rooted parents all_taxids ->
  exists state,
    coverage rows parents all_taxids = Some state /\
    (forall n, n ∈ all_taxids -> is_Some (state !! n)) /\
    (forall n c, parents !! c = Some n -> get state c <= get state n) /\
    (forall n, n ∈ all_taxids -> (forall c, parents !! c <> Some n) ->
       state !! n = Some (let '(a, b, r) := flags_of rows n in
                          species_state a b r)).
Proof.
  intros [Hclosed Hdesc].
  destruct (visit_order parents all_taxids) as (order & Hrun & Hnd & Hafter & Hall).
  unfold coverage, propagate_states. rewrite Hrun. simpl.
  eexists. split; [reflexivity|]. repeat split.
  - intros n Hn. apply dom_foldl_lift_state.
    rewrite lookup_initial_state by done. by eexists.
  - intros n c Hc. apply foldl_lift_state_dominates.
    + by rewrite reverse_Permutation.
    + intros l1 k l2 d Hl Hd. apply kids_of_build_children in Hd.
      assert (order = reverse l2 ++ k :: reverse l1) as Ho.
      { rewrite <- (reverse_involutive order), Hl.
        rewrite reverse_app, reverse_cons, <- app_assoc. done. }
      apply elem_of_reverse. by eapply Hafter.
    + apply elem_of_reverse, Hall, Hdesc. by destruct (Hclosed c n Hc).
    + by apply kids_of_build_children.
  - intros n Hn Hleaf.
    rewrite lookup_foldl_lift_state_leaf.
    + rewrite lookup_initial_state by done. by rewrite get_load_species_matrix.
    + destruct (kids_of (build_children parents) n) as [|c cs] eqn:Hk; [done|].
      exfalso. apply (Hleaf c). apply kids_of_build_children. rewrite Hk.
      apply elem_of_cons. by left.
Qed.

(** A four-node tree: 1 is the root, 2 and 4 its children, 3 below 2. *)
Lemma rooted_small : rooted {[2 := 1; 3 := 2; 4 := 1]} {[1; 2; 3; 4]}.
Proof.
  assert (forall n : Z, n ∈ ({[1; 2; 3; 4]} : gset Z) ->
            descends {[2 := 1; 3 := 2; 4 := 1]} {[1; 2; 3; 4]} n) as Hdesc.
  { assert (descends {[2 := 1; 3 := 2; 4 := 1]} {[1; 2; 3; 4]} 1) as H1.
    { apply descends_root; [set_solver|done]. }
    assert (descends {[2 := 1; 3 := 2; 4 := 1]} {[1; 2; 3; 4]} 2) as H2.
    { by apply (descends_child _ _ 2 1). }
    intros n Hn.
    assert (n = 1 \/ n = 2 \/ n = 3 \/ n = 4) as [->|[->|[->| ->]]] by set_solver.
    - done.
    - done.
    - by apply (descends_child _ _ 3 2).
    - by apply (descends_child _ _ 4 1). }
  split; [|done].
  intros c p Hc. apply elem_of_map_to_list in Hc.
  assert (map_to_list ({[2 := 1; 3 := 2; 4 := 1]} : gmap Z Z)
          = [(3, 2); (4, 1); (2, 1)]) as Hl by (vm_compute; reflexivity).
  rewrite Hl in Hc. set_solver.
Qed.

Lemma coverage_propagation_invariant_witness :
  rooted {[2 := 1; 3 := 2; 4 := 1]} {[1; 2; 3; 4]} /\
  exists state,
    coverage [MatrixRow 3 true true true; MatrixRow 4 true false false]
             {[2 := 1; 3 := 2; 4 := 1]} {[1; 2; 3; 4]} = Some state /\
    (forall n, n ∈ ({[1; 2; 3; 4]} : gset Z) -> is_Some (state !! n)) /\
    (forall n c, ({[2 := 1; 3 := 2; 4 := 1]} : gmap Z Z) !! c = Some n ->
       get state c <= get state n) /\
    (forall n, n ∈ ({[1; 2; 3; 4]} : gset Z) ->
       (forall c, ({[2 := 1; 3 := 2; 4 := 1]} : gmap Z Z) !! c <> Some n) ->
       state !! n =
       Some (let '(a, b, r) :=
               flags_of [MatrixRow 3 true true true; MatrixRow 4 true false false] n
             in species_state a b r)).
Proof.
  split; [exact rooted_small|].
  apply (coverage_propagation_invariant
           [MatrixRow 3 true true true; MatrixRow 4 true false false]
           {[2 := 1; 3 := 2; 4 := 1]} {[1; 2; 3; 4]}).
  exact rooted_small.
Defined.

End CoverageFacts.

Section LayoutFacts.
Import Layout.
Local Open Scope R_scope.

(** *** Sums *)








(** *** Angle allocation *)








(** *** Child rays *)





(** *** Zoom thresholds *)




(** *** Frames *)


(** *** The laid-out tree *)

Lemma node_nested_ind (P : node -> Prop) :
  (forall id nbdesc children, Forall P children -> P (Nd id nbdesc children)) ->
  forall nd, P nd.
Proof.
  intros Hstep. fix IH 1. intros [id nbdesc children]. apply Hstep.
  induction children as [|c children IHc]; constructor; [apply IH|exact IHc].
Qed.

Lemma foldr_and_Forall {A} (P : A -> Prop) (l : list A) :
  foldr (fun c acc => P c /\ acc) True l <-> Forall P l.
Proof.
  induction l as [|c l IH]; simpl.
  - split; [constructor|done].
  - rewrite Forall_cons, IH. done.
Qed.

Lemma well_formed_node id nbdesc children :
  well_formed (Nd id nbdesc children) <->
  (1 <= _count_descendants (Nd id nbdesc children))%Z /\
  Forall well_formed children.
Proof.
  change (well_formed (Nd id nbdesc children)) with
    ((1 <= _count_descendants (Nd id nbdesc children))%Z /\
     foldr (fun c acc => well_formed c /\ acc) True children).
  by rewrite foldr_and_Forall.
Qed.









(** *** The single-child cases *)

(** With counts that include the node itself, a node that has a child
    counts at least 2: the first special case is taken whatever the child
    is, and the second is never reached. *)
Lemma count_with_children id c children :
  Forall (fun k => (1 <= _count_descendants k)%Z) (c :: children) ->
  (1 < _count_descendants (Nd id None (c :: children)))%Z.
Proof.
  intros Hk. cbn [_count_descendants].
  assert (forall l n, Forall (fun k => (1 <= _count_descendants k)%Z) l ->
            (n <= foldl (fun n k => (n + _count_descendants k)%Z) n l)%Z) as Hmono.
  { induction l as [|k l IHl]; intros n Hl; simpl; [lia|].
    apply Forall_cons in Hl as [Hk1 Hl]. specialize (IHl (n + _count_descendants k)%Z Hl).
    lia. }
  apply Forall_cons in Hk as [Hc Hk]. simpl.
  specialize (Hmono children (1 + _count_descendants c)%Z Hk). lia.
Qed.

Lemma single_child_special id c :
  (1 <= _count_descendants c)%Z ->
  special_case 1 (_count_descendants (Nd id None [c])) = 1%Z.
Proof.
  intros Hc.
  assert (1 < _count_descendants (Nd id None [c]))%Z as Hn.
  { apply count_with_children. by repeat constructor. }
  unfold special_case. simpl Nat.eqb.
  by rewrite (proj2 (Z.ltb_lt _ _) Hn).
Qed.

(** C1, at its failing input: the only child of the root of
    [single_leaf_child] is a leaf, with descendant count 1, and its ray is
    the root ray minus 20% (8, and 8.0 in binary64), not minus 50%. *)
Theorem single_leaf_child_ray :
  _count_descendants <$> node_children single_leaf_child = [1%Z] /\
  l_ray <$> l_children
    (layout_tree single_leaf_child ROOT_X ROOT_Y ROOT_ALPHA ROOT_RAY)
  = [ROOT_RAY - (ROOT_RAY * 20) / 100] /\
  ROOT_RAY - (ROOT_RAY * 20) / 100 = 8 /\
  ROOT_RAY - (ROOT_RAY * 50) / 100 = 5 /\
  Binary64.shrink_20 Binary64.ROOT_RAY = 8%float.
Proof.
  split; [reflexivity|]. split; [|split; [|split]].
  - unfold layout_tree, single_leaf_child.
    cbn [_layout l_children zip_with child_frames angle_allocation fmap list_fmap
         _count_descendants length ang_final seq foldl].
    reflexivity.
  - unfold ROOT_RAY. lra.
  - unfold ROOT_RAY. lra.
  - vm_compute. reflexivity.
Qed.

(** *** The root *)

Lemma ROOT_Y_real : ROOT_Y = -0.339746.
Proof. unfold ROOT_Y. lra. Qed.

(** C8, as the code has it: the first record emitted with the default
    constants is the root with x = -6.0, alpha = 150 and ray = 10.0, and
    y = 9.660254 - 10.0; in the binary64 arithmetic of the code that
    difference is -0x1.5be6601bc98a0p-2, within 1e-15 of -0.339746. *)
Theorem root_fixed_point (tree : node) :
  exists root rest,
    (radial_layout tree ROOT_X ROOT_Y ROOT_ALPHA ROOT_RAY).1 = root :: rest /\
    n_x root = -6.0 /\ n_y root = 9.660254 - 10.0 /\
    n_alpha root = 150.0 /\ n_ray root = 10.0 /\
    Binary64.root_frame
    = ((-6.0)%float, (-0x1.5be6601bc98a0p-2)%float, 150.0%float, 10.0%float) /\
    PrimFloat.ltb
      (PrimFloat.abs (Binary64.ROOT_Y - (-0.339746))%float) 1e-15%float = true.
Proof.
  destruct tree as [id nbdesc children].
  eexists _, _. split; [reflexivity|]. simpl.
  repeat split; vm_compute; reflexivity.
Qed.

(** C8 as stated fails: the y of the root, [9.660254 - 10.0] in binary64,
    does not compare equal to [-0.339746]. *)
Lemma root_y_inexact :
  PrimFloat.eqb Binary64.ROOT_Y (-0.339746)%float = false.
Proof. vm_compute. reflexivity. Qed.

End LayoutFacts.

Section TreeBuilderFacts.
Import TreeBuilder.

Example build_small :
  build_tree 10 small_hierarchy (Some "2759") =
  Built (Node "2759" "Eukaryota" "domain"
           [Node "33090" "Viridiplantae" "kingdom" [];
            Node "33154" "Opisthokonta" "clade" []])
        (node_info small_hierarchy) "2759".
Proof. vm_compute. reflexivity. Qed.

Lemma elem_of_insert_sorted s l x : x ∈ insert_sorted s l <-> x = s \/ x ∈ l.
Proof.
  induction l as [|h t IH]; simpl.
  - rewrite list_elem_of_singleton, elem_of_nil. tauto.
  - destruct (String.leb s h); rewrite !elem_of_cons; [tauto|].
    rewrite IH. tauto.
Qed.

Lemma elem_of_sorted l x : x ∈ sorted l <-> x ∈ l.
Proof.
  unfold sorted. induction l as [|h t IH]; simpl; [done|].
  rewrite elem_of_insert_sorted, elem_of_cons, IH. tauto.
Qed.






End TreeBuilderFacts.

Section TileFacts.
Import Tiles.

(** *** The budget *)

Lemma len_head {A} (n : Z) (l : list A) : 0 <= n -> len (head n l) <= n.
Proof.
  intros Hn. unfold head, len. destruct (Z.leb_spec 0 n); [|lia].
  rewrite length_take. lia.
Qed.

Lemma len_aggregate_subtrees tile_df max_n :
  0 <= max_n -> len (aggregate_subtrees tile_df max_n) <= max_n.
Proof.
  intros Hn. unfold aggregate_subtrees.
  destruct (Z.leb_spec (len tile_df) max_n); [done|].
  destruct (max_n <=? len _); by apply len_head.
Qed.

Lemma len_lod_downsample tile_df max_n :
  0 <= max_n -> len (lod_downsample tile_df max_n) <= max_n.
Proof.
  intros Hn. unfold lod_downsample.
  destruct (Z.leb_spec (len tile_df) max_n); [done|].
  destruct (100000 <? len tile_df); by apply len_aggregate_subtrees.
Qed.

(** C3: whatever the input frame, zoom level and row, the tile produced
    by the reduction (chain collapse then aggregation, or aggregation
    alone above 100,000 nodes) holds at most 20,000 nodes. *)
Theorem tile_budget (cast_unrepresentable : Q -> Z) (df : list row) (z ty : Z) :
  len (build_tile cast_unrepresentable df z ty) <= 20000.
Proof.
  unfold build_tile. change 20000 with MAX_NODES_PER_TILE.
  apply len_lod_downsample. unfold MAX_NODES_PER_TILE. lia.
Qed.

(** *** Row assignment *)







(** *** Chain collapsing *)

Lemma child_rows_cons r tile_df p :
  child_rows (r :: tile_df) p =
  if decide (parent_taxid r = p) then taxid r :: child_rows tile_df p
  else child_rows tile_df p.
Proof.
  unfold child_rows. rewrite filter_cons. by destruct (decide (parent_taxid r = p)).
Qed.

Lemma children_of_foldl_add_row (taxids : gset Z) tile_df parent_to_children p :
  children_of (foldl (add_row taxids) parent_to_children tile_df) p =
  children_of parent_to_children p ++
  (if (0 <=? p) && bool_decide (p ∈ taxids) then child_rows tile_df p else []).
Proof.
  revert parent_to_children.
  induction tile_df as [|r tile_df IH]; intros parent_to_children; cbn [foldl].
  - unfold child_rows. simpl. destruct (_ && _); by rewrite app_nil_r.
  - rewrite IH, child_rows_cons. unfold add_row.
    destruct (decide (parent_taxid r = p)) as [->|Hne].
    + destruct ((0 <=? p) && bool_decide (p ∈ taxids)); [|done].
      unfold children_of at 1. rewrite lookup_insert_eq. simpl.
      by rewrite <- app_assoc.
    + destruct ((0 <=? parent_taxid r) && bool_decide (parent_taxid r ∈ taxids));
        [|done].
      unfold children_of at 1. by rewrite lookup_insert_ne.
Qed.

Lemma children_of_tile (taxids : gset Z) tile_df p :
  children_of (foldl (add_row taxids) ∅ tile_df) p =
  if (0 <=? p) && bool_decide (p ∈ taxids) then child_rows tile_df p else [].
Proof.
  rewrite children_of_foldl_add_row. unfold children_of at 1.
  by rewrite lookup_empty.
Qed.

Lemma elem_of_keep (f : Z -> bool) (l : list Z) (keep : gset Z) tid :
  tid ∈ foldl (fun keep tid => if f tid then {[tid]} ∪ keep else keep) keep l
  <-> tid ∈ keep \/ (tid ∈ l /\ f tid = true).
Proof.
  revert keep. induction l as [|t l IH]; intros keep; cbn [foldl].
  - rewrite elem_of_nil. tauto.
  - rewrite IH, elem_of_cons. destruct (f t) eqn:Hf.
    + rewrite elem_of_union, elem_of_singleton. split.
      * intros [[->|?]|[? ?]]; auto.
      * intros [?|[[->|?] ?]]; auto.
    + split.
      * intros [?|[? ?]]; auto.
      * intros [?|[[->|?] ?]]; auto. congruence.
Qed.

Lemma elem_of_collapse_chains tile_df r :
  MAX_NODES_PER_TILE < len tile_df ->
  r ∈ collapse_chains tile_df <->
  r ∈ tile_df /\
  kept (foldl (add_row (list_to_set (taxid <$> tile_df))) ∅ tile_df) (taxid r)
  = true.
Proof.
  intros Hover. unfold collapse_chains.
  destruct (Z.leb_spec (len tile_df) MAX_NODES_PER_TILE); [lia|].
  rewrite list_elem_of_filter, elem_of_keep, elem_of_elements, elem_of_list_to_set.
  split.
  - intros [[Hin|[_ Hk]] Hr]; [set_solver|done].
  - intros [Hr Hk]. split; [|done]. right. split; [|done].
    apply list_elem_of_fmap. by exists r.
Qed.

Lemma child_rows_taxid tile_df p c :
  c ∈ child_rows tile_df p -> c ∈ taxid <$> tile_df.
Proof.
  unfold child_rows. intros Hc.
  apply list_elem_of_fmap in Hc as (r & -> & Hr).
  apply list_elem_of_filter in Hr as [_ Hr]. apply list_elem_of_fmap. by exists r.
Qed.

(** On the chain A -> B -> C -> D with leaf D, of non-negative ids in the
    tile: A and B fail the test of the loop, C and D pass it. *)
Lemma kept_on_chain tile_df a b c d :
  0 <= a -> 0 <= b -> 0 <= c ->
  child_rows tile_df a = [b] -> child_rows tile_df b = [c] ->
  child_rows tile_df c = [d] -> child_rows tile_df d = [] ->
  let parent_to_children :=
    foldl (add_row (list_to_set (taxid <$> tile_df))) ∅ tile_df in
  (a ∈ taxid <$> tile_df -> kept parent_to_children a = false) /\
  kept parent_to_children b = false /\
  kept parent_to_children c = true /\
  kept parent_to_children d = true.
Proof.
  intros Ha Hb Hc Hab Hbc Hcd Hd parent_to_children.
  assert (b ∈ taxid <$> tile_df) as Hbin.
  { apply (child_rows_taxid tile_df a). rewrite Hab. by apply list_elem_of_singleton. }
  assert (c ∈ taxid <$> tile_df) as Hcin.
  { apply (child_rows_taxid tile_df b). rewrite Hbc. by apply list_elem_of_singleton. }
  assert (children_of parent_to_children b = [c]) as Hkb.
  { unfold parent_to_children. rewrite children_of_tile.
    rewrite (proj2 (Z.leb_le 0 b)) by done.
    rewrite bool_decide_eq_true_2 by (by apply elem_of_list_to_set). done. }
  assert (children_of parent_to_children c = [d]) as Hkc.
  { unfold parent_to_children. rewrite children_of_tile.
    rewrite (proj2 (Z.leb_le 0 c)) by done.
    rewrite bool_decide_eq_true_2 by (by apply elem_of_list_to_set). done. }
  assert (children_of parent_to_children d = []) as Hkd.
  { unfold parent_to_children. rewrite children_of_tile.
    by destruct (_ && _). }
  repeat split.
  - intros Hain.
    assert (children_of parent_to_children a = [b]) as Hka.
    { unfold parent_to_children. rewrite children_of_tile.
      rewrite (proj2 (Z.leb_le 0 a)) by done.
      rewrite bool_decide_eq_true_2 by (by apply elem_of_list_to_set). done. }
    unfold kept. by rewrite Hka, Hkb.
  - unfold kept. by rewrite Hkb, Hkc.
  - unfold kept. by rewrite Hkc, Hkd.
  - unfold kept. by rewrite Hkd.
Qed.

Lemma chain_tile_over_budget : MAX_NODES_PER_TILE < len chain_tile.
Proof. vm_compute. reflexivity. Qed.

Lemma chain_tile_children :
  child_rows chain_tile 1 = [2] /\ child_rows chain_tile 2 = [3] /\
  child_rows chain_tile 3 = [4] /\ child_rows chain_tile 4 = [] /\
  child_rows chain_tile 0 = [1; 5].
Proof. repeat split; vm_compute; reflexivity. Qed.

(** C2, as the code has it: when reduction is forced on a tile that
    holds the single-child chain A -> B -> C -> D (D a leaf), chain
    collapsing keeps C, the node whose only child is the leaf, and the
    leaf D, and drops A and B. *)
Theorem collapse_chains_keeps_chain_end tile_df a b c d r :
  MAX_NODES_PER_TILE < len tile_df ->
  0 <= a -> 0 <= b -> 0 <= c ->
  child_rows tile_df a = [b] -> child_rows tile_df b = [c] ->
  child_rows tile_df c = [d] -> child_rows tile_df d = [] ->
  r ∈ tile_df ->
  (taxid r = a \/ taxid r = b -> r ∉ collapse_chains tile_df) /\
  (taxid r = c \/ taxid r = d -> r ∈ collapse_chains tile_df).
Proof.
  intros Hover Ha Hb Hc Hab Hbc Hcd Hd Hr.
  destruct (kept_on_chain tile_df a b c d Ha Hb Hc Hab Hbc Hcd Hd)
    as (Hka & Hkb & Hkc & Hkd).
  assert (taxid r ∈ taxid <$> tile_df) as Hin.
  { apply list_elem_of_fmap. by exists r. }
  split.
  - intros Hid Hkeep. apply elem_of_collapse_chains in Hkeep as [_ Hk]; [|done].
    destruct Hid as [Hid|Hid]; rewrite Hid in *.
    + rewrite Hka in Hk by done. discriminate.
    + rewrite Hkb in Hk. discriminate.
  - intros Hid. apply elem_of_collapse_chains; [done|]. split; [done|].
    destruct Hid as [->| ->]; done.
Qed.

Lemma plain_row_in_chain_tile tid parent :
  plain_row tid parent ∈
    [plain_row 0 999999; plain_row 1 0; plain_row 2 1; plain_row 3 2;
     plain_row 4 3; plain_row 5 0] ->
  plain_row tid parent ∈ chain_tile.
Proof. intros Hin. unfold chain_tile. apply elem_of_app. by left. Qed.

Lemma collapse_chains_keeps_chain_end_witness :
  MAX_NODES_PER_TILE < len chain_tile /\
  0 <= 1 /\ 0 <= 2 /\ 0 <= 3 /\
  child_rows chain_tile 1 = [2] /\ child_rows chain_tile 2 = [3] /\
  child_rows chain_tile 3 = [4] /\ child_rows chain_tile 4 = [] /\
  plain_row 3 2 ∈ chain_tile /\
  (taxid (plain_row 3 2) = 1 \/ taxid (plain_row 3 2) = 2 ->
     plain_row 3 2 ∉ collapse_chains chain_tile) /\
  (taxid (plain_row 3 2) = 3 \/ taxid (plain_row 3 2) = 4 ->
     plain_row 3 2 ∈ collapse_chains chain_tile).
Proof.
  assert (plain_row 3 2 ∈ chain_tile) as Hin.
  { apply plain_row_in_chain_tile.
    do 3 apply list_elem_of_further. apply list_elem_of_here. }
  destruct chain_tile_children as (H1 & H2 & H3 & H4 & _).
  split; [exact chain_tile_over_budget|].
  split; [lia|]. split; [lia|]. split; [lia|].
  split; [exact H1|]. split; [exact H2|]. split; [exact H3|].
  split; [exact H4|]. split; [exact Hin|].
  apply (collapse_chains_keeps_chain_end chain_tile 1 2 3 4 (plain_row 3 2));
    [exact chain_tile_over_budget|lia|lia|lia
    |exact H1|exact H2|exact H3|exact H4|exact Hin].
Defined.

(** C2 as stated fails on [chain_tile]: collapsing does not keep A and D
    while dropping B and C, since A (row 1) is dropped and C (row 3) is
    kept. *)
Lemma collapse_chains_drops_chain_head :
  ~ (plain_row 1 0 ∈ collapse_chains chain_tile /\
     plain_row 4 3 ∈ collapse_chains chain_tile /\
     plain_row 2 1 ∉ collapse_chains chain_tile /\
     plain_row 3 2 ∉ collapse_chains chain_tile).
Proof.
  intros (HA & _ & _ & HC).
  destruct chain_tile_children as (H1 & H2 & H3 & H4 & _).
  destruct (kept_on_chain chain_tile 1 2 3 4) as (Hka & _ & Hkc & _);
    [lia|lia|lia|exact H1|exact H2|exact H3|exact H4|].
  apply HC. apply elem_of_collapse_chains; [apply chain_tile_over_budget|].
  split; [|exact Hkc]. apply plain_row_in_chain_tile.
  do 3 apply list_elem_of_further. apply list_elem_of_here.
Qed.

End TileFacts.

(* ===================================================================== *)
(** * Part III: further properties of the code                            *)
(* ===================================================================== *)

Section CoverageMore.
Import Coverage.

(** *** Propagation on any input *)

Lemma get_lift_state_mono children state m n :
  get state n <= get (lift_state children state m) n.
Proof.
  unfold lift_state. destruct (kids_of children m) as [|k ks]; [lia|].
  destruct (decide (m = n)) as [->|Hne].
  - unfold get at 2. rewrite lookup_insert_eq. simpl. lia.
  - unfold get at 2. rewrite lookup_insert_ne by done. fold (get state n). lia.
Qed.

Lemma get_foldl_lift_state_mono children state l n :
  get state n <= get (foldl (lift_state children) state l) n.
Proof.
  revert state. induction l as [|m l IH]; intros state; cbn [foldl]; [lia|].
  pose proof (get_lift_state_mono children state m n).
  specialize (IH (lift_state children state m)). lia.
Qed.

Lemma get_foldl_lift_state_notin children state l n :
  n ∉ l -> foldl (lift_state children) state l !! n = state !! n.
Proof.
  revert state. induction l as [|m l IH]; intros state Hn; cbn [foldl]; [done|].
  apply not_elem_of_cons in Hn as [Hne Hn]. rewrite IH by done.
  unfold lift_state. destruct (kids_of children m); [done|].
  by rewrite lookup_insert_ne.
Qed.

Lemma get_initial_state (species_states : gmap Z Z) (all_taxids : gset Z) n :
  n ∈ all_taxids ->
  get (set_to_map (fun tid => (tid, get species_states tid)) all_taxids) n
  = get species_states n.
Proof. intros Hn. unfold get at 1. by rewrite lookup_initial_state. Qed.

(** X1: whatever the parent map (a forest, a graph with cycles, parents
    outside the taxid set), the traversal of [propagate_states] ends and
    the returned dictionary has an entry for every taxid of [all_taxids]. *)
Theorem propagate_states_returns
    (species_states parents : gmap Z Z) (all_taxids : gset Z) :
  exists state,
    propagate_states species_states parents all_taxids = Some state /\
    forall n, n ∈ all_taxids -> is_Some (state !! n).
Proof.
  destruct (visit_order parents all_taxids) as (order & Hrun & _).
  unfold propagate_states. rewrite Hrun. simpl.
  eexists. split; [reflexivity|].
  intros n Hn. apply dom_foldl_lift_state.
  rewrite lookup_initial_state by done. by eexists.
Qed.

(** X2: propagation never lowers a state: every taxid ends at least as
    high as the state the species dictionary gives it (NO_DATA when it
    gives none). *)
Theorem propagate_states_never_lowers
    (species_states parents : gmap Z Z) (all_taxids : gset Z) :
  exists state,
    propagate_states species_states parents all_taxids = Some state /\
    forall n, n ∈ all_taxids -> get species_states n <= get state n.
Proof.
  destruct (visit_order parents all_taxids) as (order & Hrun & _).
  unfold propagate_states. rewrite Hrun. simpl.
  eexists. split; [reflexivity|].
  intros n Hn. rewrite <- (get_initial_state species_states all_taxids n Hn).
  apply get_foldl_lift_state_mono.
Qed.

(** *** The range of the states *)

Lemma species_state_range a b r : 0 <= species_state a b r <= 5.
Proof. destruct a, b, r; vm_compute; split; discriminate. Qed.

Lemma load_species_matrix_range rows tid :
  0 <= get (load_species_matrix rows) tid <= 5.
Proof.
  rewrite get_load_species_matrix. destruct (flags_of rows tid) as [[a b] r].
  apply species_state_range.
Qed.

Lemma max_of_range lo hi v vs :
  lo <= v <= hi -> Forall (fun w => lo <= w <= hi) vs ->
  lo <= max_of v vs <= hi.
Proof.
  unfold max_of. intros Hv Hvs. revert v Hv.
  induction Hvs as [|w vs Hw _ IH]; intros v Hv; simpl; [done|].
  apply IH. lia.
Qed.

Lemma get_lift_state_eq children state n k ks :
  kids_of children n = k :: ks ->
  get (lift_state children state n) n
  = Z.max (get state n) (max_of (get state k) (get state <$> ks)).
Proof.
  intros Hk. unfold lift_state. rewrite Hk. unfold get at 1.
  by rewrite lookup_insert_eq.
Qed.

Lemma lift_state_range children state m :
  (forall n, 0 <= get state n <= 5) ->
  forall n, 0 <= get (lift_state children state m) n <= 5.
Proof.
  intros Hst n. destruct (decide (n = m)) as [->|Hne].
  - destruct (kids_of children m) as [|k ks] eqn:Hk.
    + unfold lift_state. rewrite Hk. apply Hst.
    + rewrite (get_lift_state_eq children state m k ks Hk).
      assert (0 <= max_of (get state k) (get state <$> ks) <= 5) as Hbest.
      { apply max_of_range; [done|]. apply Forall_fmap, Forall_forall.
        intros c _. apply Hst. }
      specialize (Hst m). lia.
  - rewrite get_lift_state_ne by done. apply Hst.
Qed.

Lemma foldl_lift_state_range children state l :
  (forall n, 0 <= get state n <= 5) ->
  forall n, 0 <= get (foldl (lift_state children) state l) n <= 5.
Proof.
  revert state. induction l as [|m l IH]; intros state Hst; cbn [foldl]; [done|].
  apply IH. by apply lift_state_range.
Qed.

Lemma initial_state_range rows (all_taxids : gset Z) n :
  0 <= get (set_to_map
              (fun tid => (tid, get (load_species_matrix rows) tid))
              all_taxids) n <= 5.
Proof.
  destruct (decide (n ∈ all_taxids)) as [Hn|Hn].
  - rewrite get_initial_state by done. apply load_species_matrix_range.
  - unfold get at 1 3.
    destruct ((set_to_map (fun tid => (tid, get (load_species_matrix rows) tid))
                 all_taxids : gmap Z Z) !! n) as [v|] eqn:Hv; simpl.
    + apply lookup_set_to_map in Hv as (y & Hy & Heq); [|naive_solver].
      injection Heq as -> <-. apply load_species_matrix_range.
    + unfold NO_DATA. lia.
Qed.

(** X3: every state that [main] writes is one of the six coverage
    states: whatever the matrix and the tree, each entry of the result
    lies in 0..5. *)
Theorem coverage_states_in_range
    (rows : list matrix_row) (parents : gmap Z Z) (all_taxids : gset Z) :
  exists state,
    coverage rows parents all_taxids = Some state /\
    forall n s, state !! n = Some s -> 0 <= s <= 5.
Proof.
  destruct (visit_order parents all_taxids) as (order & Hrun & _).
  unfold coverage, propagate_states. rewrite Hrun. simpl.
  eexists. split; [reflexivity|].
  intros n s Hs.
  pose proof (foldl_lift_state_range (build_children parents) _ (reverse order)
                (initial_state_range rows all_taxids) n) as Hr.
  unfold get at 1 3 in Hr. rewrite Hs in Hr. exact Hr.
Qed.

(** *** Where a state comes from *)

Lemma max_of_attained v vs : max_of v vs = v \/ max_of v vs ∈ vs.
Proof.
  unfold max_of. revert v. induction vs as [|w vs IH]; intros v; simpl; [by left|].
  destruct (IH (Z.max v w)) as [Heq|Hin].
  - rewrite Heq. destruct (Z.max_spec v w) as [[_ ->]|[_ ->]].
    + right. apply list_elem_of_here.
    + by left.
  - right. by apply list_elem_of_further.
Qed.

(** The state a processed node ends with: the larger of the state it
    started with and the best final state of its children. *)
Lemma foldl_lift_state_exact children state (l : list Z) n k ks :
  NoDup l ->
  (forall l1 m l2 c, l = l1 ++ m :: l2 -> c ∈ kids_of children m -> c ∈ l1) ->
  n ∈ l -> kids_of children n = k :: ks ->
  get (foldl (lift_state children) state l) n =
  Z.max (get state n)
        (max_of (get (foldl (lift_state children) state l) k)
                (get (foldl (lift_state children) state l) <$> ks)).
Proof.
  intros Hnd Hbefore Hn Hk.
  apply list_elem_of_split in Hn as (l1 & l2 & ->).
  apply NoDup_app in Hnd as (Hnd1 & Hdisj & Hnd2).
  apply NoDup_cons in Hnd2 as [Hn2 _].
  assert (n ∉ l1) as Hn1.
  { intros Hin. apply (Hdisj n Hin). apply list_elem_of_here. }
  assert (forall c, c ∈ k :: ks ->
            get (foldl (lift_state children) state (l1 ++ n :: l2)) c
            = get (foldl (lift_state children) state l1) c) as Hkid.
  { intros c Hc.
    assert (c ∈ l1) as Hc1.
    { apply (Hbefore l1 n l2 c eq_refl). by rewrite Hk. }
    assert (c ∉ n :: l2) as Hc2 by (by apply Hdisj).
    apply not_elem_of_cons in Hc2 as [Hcn Hc2].
    rewrite foldl_app. cbn [foldl]. unfold get at 1.
    rewrite get_foldl_lift_state_notin by done.
    fold (get (lift_state children (foldl (lift_state children) state l1) n) c).
    by rewrite get_lift_state_ne. }
  rewrite (Hkid k) by apply list_elem_of_here.
  assert (get (foldl (lift_state children) state (l1 ++ n :: l2)) <$> ks
          = get (foldl (lift_state children) state l1) <$> ks) as ->.
  { apply list_fmap_ext. intros i c Hc. apply Hkid.
    apply list_elem_of_further. by eapply list_elem_of_lookup_2. }
  rewrite foldl_app. cbn [foldl]. unfold get at 1.
  rewrite get_foldl_lift_state_notin by done.
  fold (get (lift_state children (foldl (lift_state children) state l1) n) n).
  rewrite (get_lift_state_eq children _ n k ks Hk).
  f_equal. unfold get at 1 2. by rewrite get_foldl_lift_state_notin.
Qed.

(** X4: the state of a taxid is always attained: it is the state the
    species dictionary gives the taxid itself, or the final state of one
    of its children.  Together with the bound from below, an internal
    node holds exactly the best state found in its subtree. *)
Theorem propagate_states_attained
    (species_states parents : gmap Z Z) (all_taxids : gset Z) :
  exists state,
    propagate_states species_states parents all_taxids = Some state /\
    forall n, n ∈ all_taxids ->
      get state n = get species_states n \/
      exists c, parents !! c = Some n /\ get state n = get state c.
Proof.
  destruct (visit_order parents all_taxids) as (order & Hrun & Hnd & Hafter & _).
  unfold propagate_states. rewrite Hrun. simpl.
  eexists. split; [reflexivity|].
  intros n Hn.
  set (children := build_children parents).
  set (state0 := set_to_map (fun tid => (tid, get species_states tid)) all_taxids
                 : gmap Z Z).
  assert (get state0 n = get species_states n) as Hinit
    by (by apply get_initial_state).
  destruct (kids_of children n) as [|k ks] eqn:Hk.
  { left. unfold get at 1. rewrite lookup_foldl_lift_state_leaf by done.
    exact Hinit. }
  destruct (decide (n ∈ reverse order)) as [Hin|Hout].
  - rewrite (foldl_lift_state_exact children state0 (reverse order) n k ks);
      [|by rewrite reverse_Permutation| |done|done].
    + destruct (Z.max_spec (get state0 n)
                  (max_of (get (foldl (lift_state children) state0 (reverse order)) k)
                     (get (foldl (lift_state children) state0 (reverse order)) <$> ks)))
        as [[_ ->]|[_ ->]]; [|by left].
      right.
      destruct (max_of_attained
                  (get (foldl (lift_state children) state0 (reverse order)) k)
                  (get (foldl (lift_state children) state0 (reverse order)) <$> ks))
        as [->|Hmax].
      * exists k. split; [|done]. apply kids_of_build_children.
        fold children. rewrite Hk. apply list_elem_of_here.
      * apply list_elem_of_fmap in Hmax as (c & -> & Hc).
        exists c. split; [|done]. apply kids_of_build_children.
        fold children. rewrite Hk. by apply list_elem_of_further.
    + intros l1 m l2 c Hl Hc. apply kids_of_build_children in Hc.
      assert (order = reverse l2 ++ m :: reverse l1) as Ho.
      { rewrite <- (reverse_involutive order), Hl.
        rewrite reverse_app, reverse_cons, <- app_assoc. done. }
      apply elem_of_reverse. by eapply Hafter.
  - left. unfold get at 1. rewrite get_foldl_lift_state_notin by done.
    exact Hinit.
Qed.

(** *** Taxids the traversal does not reach *)

Lemma Forall_push_kids (P : Z -> Prop) seen stack kids :
  Forall P stack -> Forall P kids -> Forall P (push_kids seen stack kids).
Proof.
  intros Hs Hk. apply Forall_forall. intros c Hc.
  apply elem_of_push_kids in Hc as [Hc|[Hc _]].
  - rewrite Forall_forall in Hs. by apply Hs.
  - rewrite Forall_forall in Hk. by apply Hk.
Qed.

(** A property that holds of the start of the traversal and passes from
    a node to its children holds of everything the traversal visits. *)
Lemma visit_closed (P : Z -> Prop) children :
  (forall n c, P n -> c ∈ kids_of children n -> P c) ->
  forall fuel stack seen order o,
    Forall P stack -> Forall P order ->
    visit fuel children stack seen order = Some o -> Forall P o.
Proof.
  intros Hstep. induction fuel as [|fuel IH]; intros stack seen order o Hs Ho Hrun;
    [done|].
  simpl in Hrun. destruct stack as [|n stack].
  - by injection Hrun as <-.
  - apply Forall_cons in Hs as [Hn Hs].
    destruct (decide (n ∈ seen)).
    + by apply (IH stack seen order).
    + apply (IH _ _ _ _) in Hrun; [done| |].
      * apply Forall_push_kids; [done|]. apply Forall_forall.
        intros c Hc. by apply (Hstep n).
      * apply Forall_app. split; [done|]. by apply Forall_singleton.
Qed.

(** X5: a taxid that does not descend from a root of the traversal (a
    taxid on a cycle of the parent map, or below one) is not touched: it
    keeps the state the species dictionary gives it. *)
Theorem propagate_states_unreached
    (species_states parents : gmap Z Z) (all_taxids : gset Z) :
  exists state,
    propagate_states species_states parents all_taxids = Some state /\
    forall n, n ∈ all_taxids -> ~ descends parents all_taxids n ->
      state !! n = Some (get species_states n).
Proof.
  destruct (visit_order parents all_taxids) as (order & Hrun & _).
  unfold propagate_states. rewrite Hrun. simpl.
  eexists. split; [reflexivity|].
  intros n Hn Hnot.
  assert (Forall (descends parents all_taxids) order) as Hdesc.
  { apply (visit_closed (descends parents all_taxids) (build_children parents))
      in Hrun; [done| | |by apply Forall_nil].
    - intros m c Hm Hc. apply kids_of_build_children in Hc.
      by apply (descends_child _ _ c m).
    - apply Forall_forall. intros r Hr.
      apply elem_of_reverse, elem_of_elements, elem_of_difference in Hr
        as [Hr Hdom].
      apply descends_root; [done|]. by apply not_elem_of_dom. }
  rewrite get_foldl_lift_state_notin.
  - by apply lookup_initial_state.
  - intros Hin. apply (proj1 (elem_of_reverse _ _)) in Hin.
    rewrite Forall_forall in Hdesc. by apply Hnot, Hdesc.
Qed.

Example propagate_cycle :
  propagate_states {[1 := 5; 3 := 2]} {[1 := 2; 2 := 1; 3 := 2]} {[1; 2; 3]}
  = Some {[1 := 5; 2 := 0; 3 := 2]}.
Proof. vm_compute. reflexivity. Qed.

End CoverageMore.

Section TreeBuilderMore.
Import TreeBuilder TreeShape.

(** *** The order of [sorted] *)

Lemma leb_trans s1 s2 s3 :
  String.leb s1 s2 = true -> String.leb s2 s3 = true -> String.leb s1 s3 = true.
Proof.
  unfold String.leb. revert s2 s3.
  induction s1 as [|c1 s1 IH]; intros [|c2 s2] [|c3 s3]; simpl; try done.
  unfold Ascii.compare.
  destruct (N.compare_spec (Ascii.N_of_ascii c1) (Ascii.N_of_ascii c2)) as [E12|L12|G12];
    [| |done].
  - rewrite E12.
    destruct (N.compare_spec (Ascii.N_of_ascii c2) (Ascii.N_of_ascii c3)); [|done|done].
    apply IH.
  - destruct (N.compare_spec (Ascii.N_of_ascii c2) (Ascii.N_of_ascii c3)) as [E23|L23|G23];
      [| |done]; intros _ _.
    + rewrite <- E23. by rewrite (proj2 (N.compare_lt_iff _ _) L12).
    + assert (Ascii.N_of_ascii c1 < Ascii.N_of_ascii c3)%N as L13 by lia.
      by rewrite (proj2 (N.compare_lt_iff _ _) L13).
Qed.

Lemma leb_refl s : String.leb s s = true.
Proof. destruct (String.leb_total s s); done. Qed.

Lemma insert_sorted_ascends s l :
  StronglySorted id_le l -> StronglySorted id_le (insert_sorted s l).
Proof.
  induction 1 as [|h t Ht IH Hh]; simpl.
  - repeat constructor.
  - destruct (String.leb s h) eqn:Hle.
    + constructor; [by constructor|].
      constructor; [done|]. eapply Forall_impl; [exact Hh|].
      intros x Hx. unfold id_le in *. by eapply leb_trans.
    + constructor; [done|]. apply Forall_forall. intros x Hx.
      apply elem_of_insert_sorted in Hx as [->|Hx].
      * unfold id_le. destruct (String.leb_total h s); [done|congruence].
      * rewrite Forall_forall in Hh. by apply Hh.
Qed.

Lemma sorted_ascends l : StronglySorted id_le (sorted l).
Proof.
  unfold sorted. induction l as [|s l IH]; simpl; [constructor|].
  by apply insert_sorted_ascends.
Qed.

Lemma insert_sorted_Permutation s l : insert_sorted s l ≡ₚ s :: l.
Proof.
  induction l as [|h t IH]; simpl; [done|].
  destruct (String.leb s h); [done|]. rewrite IH. apply Permutation_swap.
Qed.

Lemma sorted_Permutation l : sorted l ≡ₚ l.
Proof.
  unfold sorted. induction l as [|s l IH]; simpl; [done|].
  by rewrite insert_sorted_Permutation, IH.
Qed.

Lemma sorted_head_least l r rest :
  sorted l = r :: rest -> r ∈ l /\ forall x, x ∈ l -> id_le r x.
Proof.
  intros Hs. pose proof (sorted_ascends l) as Hasc. rewrite Hs in Hasc.
  apply StronglySorted_inv in Hasc as [_ Hall].
  split.
  - apply elem_of_sorted. rewrite Hs. apply list_elem_of_here.
  - intros x Hx. apply elem_of_sorted in Hx. rewrite Hs in Hx.
    apply elem_of_cons in Hx as [->|Hx]; [apply leb_refl|].
    rewrite Forall_forall in Hall. by apply Hall.
Qed.

(** *** What a successful build consists of *)

Lemma children_map_loop rows : children_map rows = (loop_result rows).2.
Proof.
  unfold children_map, roots_and_children, loop_result.
  destruct (foldl (add_edge (all_ids rows)) (∅, ∅) rows) as [roots children].
  by destruct (bool_decide (roots = ∅)).
Qed.

Lemma build_tree_built limit rows root_id t info r :
  build_tree limit rows root_id = Built t info r ->
  info = node_info rows /\
  make_node limit (node_info rows) (children_map rows) r = Some t /\
  match root_id with
  | Some r0 => r = r0 /\ r ∈ all_ids rows
  | None =>
      r ∈ (roots_and_children rows).1 /\
      forall r', r' ∈ (roots_and_children rows).1 -> id_le r r'
  end.
Proof.
  unfold build_tree, children_map.
  destruct (roots_and_children rows) as [roots children]. cbn [fst snd].
  destruct root_id as [r0|].
  - destruct (bool_decide (r0 ∉ all_ids rows)) eqn:Hin; [done|].
    apply bool_decide_eq_false in Hin.
    destruct (make_node limit (node_info rows) children r0) as [t0|] eqn:Hmk;
      [|done].
    intros [= <- <- <-]. repeat split; [done|].
    by destruct (decide (r0 ∈ all_ids rows)).
  - cbv zeta.
    match goal with
    | |- context [match ?pick with inl _ => _ | inr _ => _ end] =>
        destruct pick as [raised|c] eqn:Hchoice
    end.
    + intros ->. destruct (elements roots) as [|r1 [|r2 rs]]; try done;
        destruct (sorted _); done.
    + assert (exists rest, sorted (elements roots) = c :: rest) as [rest Hs].
      { destruct (elements roots) as [|r1 [|r2 rs]] eqn:He.
        - done.
        - injection Hchoice as ->. by exists [].
        - destruct (sorted (r1 :: r2 :: rs)) as [|h tl]; [done|].
          injection Hchoice as ->. by exists tl. }
      apply sorted_head_least in Hs as [Hin Hleast].
      destruct (make_node limit (node_info rows) children c) as [t0|] eqn:Hmk;
        [|done].
      intros [= <- <- <-]. repeat split; [done|by apply elem_of_elements|].
      intros r' Hr'. apply Hleast. by apply elem_of_elements.
Qed.

(** X6: without an explicit root id, a build that succeeds starts from
    a root candidate that is the least of all candidates in the order of
    [sorted]: the choice does not depend on set iteration order. *)
Theorem build_tree_default_root_least limit rows t info r :
  build_tree limit rows None = Built t info r ->
  r ∈ (roots_and_children rows).1 /\
  forall r', r' ∈ (roots_and_children rows).1 -> String.leb r r' = true.
Proof.
  intros Hb. by apply build_tree_built in Hb as (_ & _ & Hr).
Qed.

Lemma build_tree_default_root_least_witness :
  build_tree 10 small_hierarchy None
  = Built (Node "1" "1" "no rank"
             [Node "2759" "Eukaryota" "domain"
                [Node "33090" "Viridiplantae" "kingdom" [];
                 Node "33154" "Opisthokonta" "clade" []]])
          (node_info small_hierarchy) "1" /\
  "1" ∈ (roots_and_children small_hierarchy).1 /\
  forall r', r' ∈ (roots_and_children small_hierarchy).1 ->
    String.leb "1" r' = true.
Proof.
  assert (build_tree 10 small_hierarchy None
          = Built (Node "1" "1" "no rank"
                     [Node "2759" "Eukaryota" "domain"
                        [Node "33090" "Viridiplantae" "kingdom" [];
                         Node "33154" "Opisthokonta" "clade" []]])
                  (node_info small_hierarchy) "1") as Hb
    by (vm_compute; reflexivity).
  split; [exact Hb|].
  exact (build_tree_default_root_least 10 small_hierarchy _ _ _ Hb).
Defined.

(** *** Order of the children *)

Lemma make_node_children_ids info children limit nid t :
  make_node limit info children nid = Some t ->
  tree_id t = nid /\
  tree_id <$> tree_children t = sorted (children_of children nid).
Proof.
  destruct limit as [|limit]; [done|]. simpl.
  destruct (mapM (make_node limit info children)
                 (sorted (children_of children nid))) as [kids|] eqn:Hkids;
    [|done].
  intros [= <-]. split; [done|]. simpl.
  apply mapM_Some_1 in Hkids.
  induction Hkids as [|c k cs ks Hk _ IH]; [done|].
  rewrite fmap_cons, IH. f_equal.
  destruct limit as [|limit]; [done|]. simpl in Hk.
  destruct (mapM _ _); [|done]. by injection Hk as <-.
Qed.

Lemma make_node_children_ascend info children limit nid t :
  make_node limit info children nid = Some t -> children_ascend t.
Proof.
  revert nid t. induction limit as [|limit IH]; intros nid t Hrun; [done|].
  pose proof (make_node_children_ids _ _ _ _ _ Hrun) as [_ Hids].
  simpl in Hrun.
  destruct (mapM (make_node limit info children)
                 (sorted (children_of children nid))) as [kids|] eqn:Hkids;
    [|done].
  injection Hrun as <-. simpl in Hids.
  change (StronglySorted id_le (tree_id <$> kids) /\
          foldr (fun k acc => children_ascend k /\ acc) True kids).
  split.
  - rewrite Hids. apply sorted_ascends.
  - apply mapM_Some_1 in Hkids. clear Hids.
    induction Hkids as [|c k cs ks Hk _ IHk]; simpl; [done|].
    split; [by eapply IH|done].
Qed.

(** X7: in a built tree the children of every node come in ascending
    order of their ids, and the children of the root are exactly the
    entries of the adjacency for the root id (with their multiplicity). *)
Theorem build_tree_children_sorted limit rows root_id t info r :
  build_tree limit rows root_id = Built t info r ->
  children_ascend t /\
  tree_id <$> tree_children t ≡ₚ children_of (children_map rows) r.
Proof.
  intros Hb. apply build_tree_built in Hb as (_ & Hmk & _). split.
  - by eapply make_node_children_ascend.
  - apply make_node_children_ids in Hmk as [_ ->]. apply sorted_Permutation.
Qed.

Lemma build_small_again :
  build_tree 10 small_hierarchy (Some "2759") =
  Built (Node "2759" "Eukaryota" "domain"
           [Node "33090" "Viridiplantae" "kingdom" [];
            Node "33154" "Opisthokonta" "clade" []])
        (node_info small_hierarchy) "2759".
Proof. vm_compute. reflexivity. Qed.

Lemma build_tree_children_sorted_witness :
  build_tree 10 small_hierarchy (Some "2759") =
  Built (Node "2759" "Eukaryota" "domain"
           [Node "33090" "Viridiplantae" "kingdom" [];
            Node "33154" "Opisthokonta" "clade" []])
        (node_info small_hierarchy) "2759" /\
  children_ascend
    (Node "2759" "Eukaryota" "domain"
       [Node "33090" "Viridiplantae" "kingdom" [];
        Node "33154" "Opisthokonta" "clade" []]) /\
  ["33090"; "33154"] ≡ₚ children_of (children_map small_hierarchy) "2759".
Proof.
  split; [exact build_small_again|].
  exact (build_tree_children_sorted 10 small_hierarchy (Some "2759") _ _ _
           build_small_again).
Defined.

(** *** What the loop over the edges collects *)

Lemma nonempty_parent_in_all_ids rows r :
  r ∈ rows -> e_parent r <> "" -> e_parent r ∈ all_ids rows.
Proof.
  intros Hr Hne. unfold all_ids. apply elem_of_union. right.
  apply elem_of_list_to_set, list_elem_of_filter. split; [done|].
  apply list_elem_of_fmap. by exists r.
Qed.

Lemma add_edge_roots ids acc r x :
  x ∈ (add_edge ids acc r).1 <->
  x ∈ acc.1 \/
  (x = e_child r /\
   (e_parent r = "0" \/ e_parent r = "" \/ e_parent r ∉ ids)).
Proof.
  destruct acc as [roots children]. unfold add_edge. simpl.
  destruct (bool_decide (e_parent r = "0" \/ e_parent r = "")) eqn:H0;
    [apply bool_decide_eq_true in H0|apply bool_decide_eq_false in H0]; simpl.
  - rewrite elem_of_union, elem_of_singleton. tauto.
  - destruct (bool_decide (e_parent r ∉ ids)) eqn:H1;
      [apply bool_decide_eq_true in H1|apply bool_decide_eq_false in H1]; simpl.
    + rewrite elem_of_union, elem_of_singleton. tauto.
    + tauto.
Qed.

Lemma add_edge_children ids acc r p c :
  c ∈ children_of (add_edge ids acc r).2 p <->
  c ∈ children_of acc.2 p \/
  (c = e_child r /\ p = e_parent r /\
   ~ (e_parent r = "0" \/ e_parent r = "" \/ e_parent r ∉ ids)).
Proof.
  destruct acc as [roots children]. unfold add_edge. simpl.
  destruct (bool_decide (e_parent r = "0" \/ e_parent r = "")) eqn:H0;
    [apply bool_decide_eq_true in H0|apply bool_decide_eq_false in H0]; simpl.
  - tauto.
  - destruct (bool_decide (e_parent r ∉ ids)) eqn:H1;
      [apply bool_decide_eq_true in H1|apply bool_decide_eq_false in H1]; simpl.
    + tauto.
    + unfold children_of at 1. destruct (decide (e_parent r = p)) as [<-|Hne].
      * rewrite lookup_insert_eq. simpl.
        rewrite elem_of_app, list_elem_of_singleton. tauto.
      * rewrite lookup_insert_ne by done.
        fold (children_of children p). split; [tauto|].
        intros [?|(_ & -> & _)]; done.
Qed.

Lemma foldl_add_edge_roots ids rows acc x :
  x ∈ (foldl (add_edge ids) acc rows).1 <->
  x ∈ acc.1 \/
  exists r, r ∈ rows /\ x = e_child r /\
    (e_parent r = "0" \/ e_parent r = "" \/ e_parent r ∉ ids).
Proof.
  revert acc. induction rows as [|r rows IH]; intros acc; cbn [foldl].
  - split; [tauto|]. intros [?|(r & Hr & _)]; [done|]. by apply elem_of_nil in Hr.
  - rewrite IH, add_edge_roots. split.
    + intros [[?|?]|(r' & Hr' & ?)]; [by left|right; exists r|right; exists r'].
      * split; [apply list_elem_of_here|done].
      * split; [by apply list_elem_of_further|done].
    + intros [?|(r' & Hr' & ?)]; [tauto|].
      apply elem_of_cons in Hr' as [->|Hr']; [tauto|].
      right. by exists r'.
Qed.

Lemma foldl_add_edge_children ids rows acc p c :
  c ∈ children_of (foldl (add_edge ids) acc rows).2 p <->
  c ∈ children_of acc.2 p \/
  exists r, r ∈ rows /\ c = e_child r /\ p = e_parent r /\
    ~ (e_parent r = "0" \/ e_parent r = "" \/ e_parent r ∉ ids).
Proof.
  revert acc. induction rows as [|r rows IH]; intros acc; cbn [foldl].
  - split; [tauto|]. intros [?|(r & Hr & _)]; [done|]. by apply elem_of_nil in Hr.
  - rewrite IH, add_edge_children. split.
    + intros [[?|?]|(r' & Hr' & ?)]; [by left|right; exists r|right; exists r'].
      * split; [apply list_elem_of_here|done].
      * split; [by apply list_elem_of_further|done].
    + intros [?|(r' & Hr' & ?)]; [tauto|].
      apply elem_of_cons in Hr' as [->|Hr']; [tauto|].
      right. by exists r'.
Qed.

Lemma children_map_spec rows p c :
  c ∈ children_of (children_map rows) p <->
  exists r, r ∈ rows /\ e_child r = c /\ e_parent r = p /\ p <> "0" /\ p <> "".
Proof.
  rewrite children_map_loop. unfold loop_result.
  rewrite foldl_add_edge_children. simpl. unfold children_of at 1.
  rewrite lookup_empty. simpl. split.
  - intros [Hc|(r & Hr & -> & -> & Hno)]; [by apply elem_of_nil in Hc|].
    exists r. repeat split; try done; intros Heq; apply Hno; tauto.
  - intros (r & Hr & <- & <- & H0 & He). right. exists r.
    repeat split; try done. intros [?|[?|Hout]]; [done|done|].
    by apply Hout, nonempty_parent_in_all_ids.
Qed.

(** X8: the loop over the edges splits the rows in two: the child of a
    row is a root candidate exactly when the parent field is "0" or
    empty, and otherwise the row is an edge of the adjacency.  A parent
    id that merely never occurs as a child does not make a candidate. *)
Theorem build_tree_loop_split rows :
  (forall x, x ∈ (loop_result rows).1 <->
     exists r, r ∈ rows /\ e_child r = x /\
       (e_parent r = "0" \/ e_parent r = "")) /\
  (forall p c, c ∈ children_of (loop_result rows).2 p <->
     exists r, r ∈ rows /\ e_child r = c /\ e_parent r = p /\
       p <> "0" /\ p <> "").
Proof.
  split.
  - intros x. unfold loop_result. rewrite foldl_add_edge_roots. simpl. split.
    + intros [Hx|(r & Hr & -> & Hp)]; [set_solver|].
      exists r. repeat split; try done.
      destruct Hp as [?|[?|Hout]]; [tauto|tauto|].
      destruct (decide (e_parent r = "")) as [?|Hne]; [tauto|].
      exfalso. by apply Hout, nonempty_parent_in_all_ids.
    + intros (r & Hr & <- & Hp). right. exists r. tauto.
  - intros p c. rewrite <- children_map_loop. apply children_map_spec.
Qed.

(** *** Cycles and the recursion limit *)

Lemma mapM_make_node_fails info children limit (l : list string) c :
  c ∈ l -> make_node limit info children c = None ->
  mapM (make_node limit info children) l = None.
Proof.
  intros Hc Hnone.
  destruct (mapM (make_node limit info children) l) as [ks|] eqn:Hm; [|done].
  assert (is_Some (mapM (make_node limit info children) l)) as Hsome
    by (by eexists).
  apply mapM_is_Some_1 in Hsome. rewrite Forall_forall in Hsome.
  destruct (Hsome c Hc) as [k Hk]. simpl in Hk. congruence.
Qed.

Lemma tc_cycle_step {A} (R : relation A) (n : A) :
  tc R n n -> exists c, R n c /\ tc R c c.
Proof.
  intros Hn. inversion Hn as [? ? Hr|? c ? Hr Hc]; subst.
  - exists n. split; [done|by apply tc_once].
  - exists c. split; [done|]. by eapply tc_r.
Qed.

Lemma make_node_cycle info children limit n :
  tc (child_rel children) n n -> make_node limit info children n = None.
Proof.
  revert n. induction limit as [|limit IH]; intros n Hn; [done|].
  apply tc_cycle_step in Hn as (c & Hc & Hcc). simpl.
  rewrite (mapM_make_node_fails info children limit _ c); [done| |by apply IH].
  by apply elem_of_sorted.
Qed.

(** X9: when the edges make a cycle through the requested root id (for
    instance a row that names an id as its own parent), the build raises
    RecursionError, whatever the recursion limit. *)
Theorem build_tree_cycle limit rows root_id :
  root_id ∈ all_ids rows ->
  tc (child_rel (children_map rows)) root_id root_id ->
  build_tree limit rows (Some root_id) = RecursionError.
Proof.
  intros Hin Hcyc. unfold build_tree.
  pose proof (make_node_cycle (node_info rows) (children_map rows) limit
                root_id Hcyc) as Hnone.
  unfold children_map in Hnone.
  destruct (roots_and_children rows) as [roots children]. simpl in *.
  rewrite bool_decide_eq_false_2 by (by intros ?). by rewrite Hnone.
Qed.

Lemma build_tree_cycle_witness :
  "1" ∈ all_ids self_parent /\
  tc (child_rel (children_map self_parent)) "1" "1" /\
  build_tree 1000 self_parent (Some "1") = RecursionError.
Proof.
  assert ("1" ∈ all_ids self_parent) as Hin.
  { apply (bool_decide_unpack _). vm_compute. exact I. }
  assert (tc (child_rel (children_map self_parent)) "1" "1") as Hcyc.
  { apply tc_once. unfold child_rel. apply children_map_spec.
    exists (EdgeRow "1" "1" "root" "no rank").
    repeat split; [apply list_elem_of_here|done|done]. }
  split; [exact Hin|]. split; [exact Hcyc|].
  exact (build_tree_cycle 1000 self_parent "1" Hin Hcyc).
Defined.

Lemma make_node_limit_mono info children limit limit' nid t :
  make_node limit info children nid = Some t -> (limit <= limit')%nat ->
  make_node limit' info children nid = Some t.
Proof.
  revert limit' nid t.
  induction limit as [|limit IH]; intros limit' nid t Hrun Hle; [done|].
  destruct limit' as [|limit']; [lia|]. simpl in *.
  destruct (mapM (make_node limit info children)
                 (sorted (children_of children nid))) as [kids|] eqn:Hkids;
    [|done].
  assert (mapM (make_node limit' info children)
               (sorted (children_of children nid)) = Some kids) as ->.
  { apply mapM_Some_2. apply mapM_Some_1 in Hkids.
    eapply Forall2_impl; [exact Hkids|]. intros c k Hk. apply IH; [done|lia]. }
  done.
Qed.

(** X10: the recursion limit only decides whether the build succeeds:
    a build that succeeds gives the same result under every higher
    limit. *)
Theorem build_tree_limit_independent limit limit' rows root_id t info r :
  build_tree limit rows root_id = Built t info r -> (limit <= limit')%nat ->
  build_tree limit' rows root_id = Built t info r.
Proof.
  unfold build_tree.
  destruct (roots_and_children rows) as [roots children]. cbv zeta.
  match goal with
  | |- context [match ?pick with inl _ => _ | inr _ => _ end] =>
      destruct pick as [raised|c]
  end; [done|].
  destruct (make_node limit (node_info rows) children c) as [t0|] eqn:Hmk;
    [|done].
  intros [= <- <- <-] Hle.
  by rewrite (make_node_limit_mono _ _ limit limit' c t0 Hmk Hle).
Qed.

Lemma build_tree_limit_independent_witness :
  build_tree 10 small_hierarchy (Some "2759") =
  Built (Node "2759" "Eukaryota" "domain"
           [Node "33090" "Viridiplantae" "kingdom" [];
            Node "33154" "Opisthokonta" "clade" []])
        (node_info small_hierarchy) "2759" /\
  (10 <= 1000)%nat /\
  build_tree 1000 small_hierarchy (Some "2759") =
  Built (Node "2759" "Eukaryota" "domain"
           [Node "33090" "Viridiplantae" "kingdom" [];
            Node "33154" "Opisthokonta" "clade" []])
        (node_info small_hierarchy) "2759".
Proof.
  assert (10 <= 1000)%nat as Hle by lia.
  split; [exact build_small_again|]. split; [exact Hle|].
  exact (build_tree_limit_independent 10 1000 small_hierarchy (Some "2759")
           _ _ _ build_small_again Hle).
Defined.

(** *** The ids of the built tree *)

Lemma elem_of_tree_ids_node id name rank kids x :
  x ∈ tree_ids (Node id name rank kids) <->
  x = id \/ exists k, k ∈ kids /\ x ∈ tree_ids k.
Proof.
  cbn [tree_ids]. rewrite elem_of_cons. split.
  - intros [?|Hx]; [by left|right].
    apply list_elem_of_In, in_concat in Hx as (l & Hl & Hx).
    apply list_elem_of_In, list_elem_of_fmap in Hl as (k & -> & Hk).
    exists k. split; [done|]. by apply list_elem_of_In.
  - intros [?|(k & Hk & Hx)]; [by left|right].
    apply list_elem_of_In, in_concat. exists (tree_ids k). split.
    + apply list_elem_of_In, list_elem_of_fmap. by exists k.
    + by apply list_elem_of_In.
Qed.

Lemma make_node_ids info children limit nid t :
  make_node limit info children nid = Some t ->
  forall x, x ∈ tree_ids t <-> rtc (child_rel children) nid x.
Proof.
  revert nid t. induction limit as [|limit IH]; intros nid t Hrun x; [done|].
  simpl in Hrun.
  destruct (mapM (make_node limit info children)
                 (sorted (children_of children nid))) as [kids|] eqn:Hkids;
    [|done].
  injection Hrun as <-. apply mapM_Some_1 in Hkids.
  rewrite elem_of_tree_ids_node. split.
  - intros [->|(k & Hk & Hx)]; [apply rtc_refl|].
    apply list_elem_of_lookup in Hk as [i Hi].
    destruct (Forall2_lookup_r _ _ _ _ _ Hkids Hi) as (c & Hc & Hmk).
    apply (rtc_l _ _ c).
    + unfold child_rel. apply elem_of_sorted. by eapply list_elem_of_lookup_2.
    + by apply (IH c k).
  - intros Hr. apply rtc_inv in Hr as [->|(c & Hc & Hr)]; [by left|right].
    unfold child_rel in Hc. apply elem_of_sorted in Hc.
    apply list_elem_of_lookup in Hc as [i Hi].
    destruct (Forall2_lookup_l _ _ _ _ _ Hkids Hi) as (k & Hk & Hmk).
    exists k. split; [by eapply list_elem_of_lookup_2|]. by apply (IH c k).
Qed.

(** X11: the ids in a built tree are the root id and everything that can
    be reached from it along the adjacency, and nothing else. *)
Theorem build_tree_ids_reachable limit rows root_id t info r :
  build_tree limit rows root_id = Built t info r ->
  forall x, x ∈ tree_ids t <-> rtc (child_rel (children_map rows)) r x.
Proof.
  intros Hb. apply build_tree_built in Hb as (_ & Hmk & _).
  by eapply make_node_ids.
Qed.

Lemma build_tree_ids_reachable_witness :
  build_tree 10 small_hierarchy (Some "2759") =
  Built (Node "2759" "Eukaryota" "domain"
           [Node "33090" "Viridiplantae" "kingdom" [];
            Node "33154" "Opisthokonta" "clade" []])
        (node_info small_hierarchy) "2759" /\
  forall x,
    x ∈ tree_ids (Node "2759" "Eukaryota" "domain"
                    [Node "33090" "Viridiplantae" "kingdom" [];
                     Node "33154" "Opisthokonta" "clade" []]) <->
    rtc (child_rel (children_map small_hierarchy)) "2759" x.
Proof.
  split; [exact build_small_again|].
  exact (build_tree_ids_reachable 10 small_hierarchy (Some "2759") _ _ _
           build_small_again).
Defined.

End TreeBuilderMore.

Section LayoutMore.
Import Layout LayoutShape.
Local Open Scope R_scope.

(** *** Structure of the laid-out tree *)

Lemma length_angle_allocation descs :
  length (angle_allocation descs) = length descs.
Proof. unfold angle_allocation. by rewrite length_fmap. Qed.

Lemma length_ang_final alpha angles :
  length (ang_final alpha angles) = length angles.
Proof. unfold ang_final. by rewrite length_fmap, length_seq. Qed.

Lemma length_child_frames fr nbdesc descs :
  length (child_frames fr nbdesc descs) = length descs.
Proof.
  unfold child_frames.
  rewrite length_zip_with_l_eq; rewrite ?length_fmap, ?length_ang_final,
    ?length_angle_allocation; done.
Qed.

Lemma collect_ids_children (children : list node) (frames : list frame) :
  Forall (fun c => forall fr, n_id <$> _collect (_layout c fr) = node_ids c)
         children ->
  (length children <= length frames)%nat ->
  n_id <$> concat (_collect <$> zip_with _layout children frames)
  = concat (node_ids <$> children).
Proof.
  intros Hall. revert frames.
  induction Hall as [|c children Hc _ IH]; intros frames Hlen; [done|].
  destruct frames as [|f frames]; [simpl in Hlen; lia|].
  cbn [zip_with fmap list_fmap concat]. rewrite fmap_app, Hc.
  f_equal. apply IH. simpl in Hlen. lia.
Qed.

Lemma collect_ids nd fr : n_id <$> _collect (_layout nd fr) = node_ids nd.
Proof.
  revert fr. induction nd as [id nbdesc children IH] using node_nested_ind.
  intros fr. cbn [_layout _collect node_ids fmap list_fmap n_id].
  f_equal. apply collect_ids_children; [done|].
  by rewrite length_child_frames, length_fmap.
Qed.

(** X12: the layout emits one record per node of the tree it is given,
    in the order of a parent-first walk, and returns the id of the tree
    as root id: no child is dropped or moved when the frames are handed
    out. *)
Theorem radial_layout_ids (tree : node) (root_x root_y root_alpha root_ray : R) :
  n_id <$> (radial_layout tree root_x root_y root_alpha root_ray).1
  = node_ids tree /\
  Some (radial_layout tree root_x root_y root_alpha root_ray).2
  = head (node_ids tree).
Proof.
  unfold radial_layout, layout_tree. split; [apply collect_ids|].
  by destruct tree.
Qed.

(** *** Counts of a tree from [build_tree] *)

Lemma tree_nested_ind (P : TreeBuilder.tree -> Prop) :
  (forall id name rank children,
     Forall P children -> P (TreeBuilder.Node id name rank children)) ->
  forall t, P t.
Proof.
  intros Hstep. fix IH 1. intros [id name rank children]. apply Hstep.
  induction children as [|c children IHc]; constructor; [apply IH|exact IHc].
Qed.

Lemma count_of_trees (kids : list TreeBuilder.tree) (a : Z) :
  Forall (fun t => _count_descendants (of_tree t)
                   = Z.of_nat (length (TreeShape.tree_ids t))) kids ->
  foldl (fun n c => (n + _count_descendants c)%Z) a (of_tree <$> kids)
  = (a + Z.of_nat (length (concat (TreeShape.tree_ids <$> kids))))%Z.
Proof.
  intros Hall. revert a.
  induction Hall as [|t kids Ht _ IH]; intros a.
  - cbn [fmap list_fmap foldl concat length]. change (Z.of_nat 0) with 0%Z. lia.
  - cbn [fmap list_fmap foldl concat].
    change (list_fmap TreeBuilder.tree node of_tree kids) with (of_tree <$> kids).
    change (list_fmap TreeBuilder.tree (list string) TreeShape.tree_ids kids)
      with (TreeShape.tree_ids <$> kids).
    rewrite IH, Ht, length_app. lia.
Qed.

Lemma count_of_tree t :
  _count_descendants (of_tree t) = Z.of_nat (length (TreeShape.tree_ids t)).
Proof.
  induction t as [id name rank children IH] using tree_nested_ind.
  cbn [of_tree _count_descendants TreeShape.tree_ids length].
  change (list_fmap TreeBuilder.tree node of_tree children)
    with (of_tree <$> children).
  rewrite count_of_trees by done. lia.
Qed.

Lemma well_formed_of_tree t : well_formed (of_tree t).
Proof.
  induction t as [id name rank children IH] using tree_nested_ind.
  change (of_tree (TreeBuilder.Node id name rank children))
    with (Nd id None (of_tree <$> children)).
  apply well_formed_node. split.
  - change (Nd id None (of_tree <$> children))
      with (of_tree (TreeBuilder.Node id name rank children)).
    rewrite count_of_tree. simpl. lia.
  - by apply Forall_fmap.
Qed.

(** X13: a tree made by [build_tree] carries no cached counts, so the
    layout counts it itself: the descendant count of the tree is its
    number of nodes, and the tree is well formed (all counts at least 1),
    which is what the layout needs. *)
Theorem build_tree_layout_counts (t : TreeBuilder.tree) :
  well_formed (of_tree t) /\
  _count_descendants (of_tree t) = Z.of_nat (length (TreeShape.tree_ids t)) /\
  (1 <= _count_descendants (of_tree t))%Z.
Proof.
  split; [apply well_formed_of_tree|]. split; [apply count_of_tree|].
  rewrite count_of_tree. destruct t. simpl. lia.
Qed.

(** *** Geometry of a parent and its child *)





(** *** A single child *)




(** *** Every node of the layout *)





(** *** The fan of the children *)








(** *** The clade polygon *)








End LayoutMore.

Section TilesMore.
Import Tiles.

(** *** A tile is made of rows of its bucket *)

Lemma sublist_every_nth {A} (step skip : nat) (l : list A) :
  every_nth step skip l `sublist_of` l.
Proof.
  revert skip. induction l as [|r l IH]; intros skip; simpl; [constructor|].
  destruct skip as [|k]; [by apply sublist_skip|by apply sublist_cons].
Qed.

Lemma sublist_head {A} (n : Z) (l : list A) : head n l `sublist_of` l.
Proof. unfold head. destruct (0 <=? n); apply sublist_take. Qed.

Lemma insert_row_Permutation r l : insert_row r l ≡ₚ r :: l.
Proof.
  induction l as [|h t IH]; simpl; [done|].
  destruct (key_le r h); [done|]. rewrite IH. apply Permutation_swap.
Qed.

Lemma sort_values_Permutation df : sort_values df ≡ₚ df.
Proof.
  unfold sort_values. induction df as [|r df IH]; simpl; [done|].
  by rewrite insert_row_Permutation, IH.
Qed.

Lemma sublist_sample data take_from : sample data take_from `sublist_of` data.
Proof.
  unfold sample. destruct (take_from <=? 0); [apply sublist_nil_l|].
  destruct (len data <=? take_from); [done|].
  etrans; [apply sublist_head|]. apply sublist_every_nth.
Qed.

Lemma filter_disjoint_submseteq {A} (P Q : A -> Prop)
    `{!forall x, Decision (P x)} `{!forall x, Decision (Q x)} (l : list A) :
  (forall x, P x -> Q x -> False) -> filter P l ++ filter Q l ⊆+ l.
Proof.
  intros Hdisj.
  assert (filter Q l `sublist_of` filter (fun x => ~ P x) l) as Hsub.
  { induction l as [|x l IH]; [done|].
    destruct (decide (Q x)) as [Hq|Hq].
    - rewrite (filter_cons_True Q) by done.
      rewrite (filter_cons_True (fun x => ~ P x)) by (intros Hp; by eapply Hdisj).
      by apply sublist_skip.
    - rewrite (filter_cons_False Q) by done.
      destruct (decide (P x)) as [Hp|Hp].
      + by rewrite (filter_cons_False (fun x => ~ P x)) by (intros Hn; by apply Hn).
      + rewrite (filter_cons_True (fun x => ~ P x)) by done.
        by apply sublist_cons. }
  etrans; [|apply Permutation_submseteq, (filter_app_complement P l)].
  apply submseteq_skips_l. by apply sublist_submseteq.
Qed.

Lemma submseteq_collapse_chains tile_df : collapse_chains tile_df ⊆+ tile_df.
Proof.
  unfold collapse_chains. destruct (len tile_df <=? MAX_NODES_PER_TILE); [done|].
  apply sublist_submseteq, sublist_filter.
Qed.

Lemma submseteq_aggregate_subtrees tile_df max_n :
  aggregate_subtrees tile_df max_n ⊆+ tile_df.
Proof.
  unfold aggregate_subtrees. destruct (len tile_df <=? max_n); [done|].
  etrans; [|apply Permutation_submseteq, (sort_values_Permutation tile_df)].
  set (df := sort_values tile_df).
  destruct (max_n <=? len (filter (fun r => depth r <= 8) df)).
  - apply sublist_submseteq. etrans; [apply sublist_head|]. apply sublist_filter.
  - etrans; [apply sublist_submseteq, sublist_head|].
    etrans; [|apply (filter_disjoint_submseteq
                       (fun r => depth r <= 8) (fun r => depth r > 8) df); lia].
    apply submseteq_skips_l.
    set (rest := filter (fun r => depth r > 8) df).
    etrans; [|apply (filter_disjoint_submseteq
                       (fun r => coverage_state r > 0)
                       (fun r => coverage_state r = 0) rest); lia].
    apply submseteq_app; apply sublist_submseteq, sublist_sample.
Qed.

Lemma submseteq_lod_downsample tile_df max_n :
  lod_downsample tile_df max_n ⊆+ tile_df.
Proof.
  unfold lod_downsample. destruct (len tile_df <=? max_n); [done|].
  destruct (100000 <? len tile_df); [apply submseteq_aggregate_subtrees|].
  etrans; [apply submseteq_aggregate_subtrees|apply submseteq_collapse_chains].
Qed.

(** X20: a tile only holds rows of its bucket: every row of the tile
    written for (z, ty) is a row of the frame whose row index at zoom z is
    ty, and no row occurs more often in the tile than in the frame. *)
Theorem build_tile_rows (cast_unrepresentable : Q -> Z) (df : list row) (z ty : Z) :
  build_tile cast_unrepresentable df z ty ⊆+ df /\
  forall r, r ∈ build_tile cast_unrepresentable df z ty ->
    r ∈ df /\ tile_y cast_unrepresentable r z = ty.
Proof.
  assert (build_tile cast_unrepresentable df z ty
            ⊆+ bucket cast_unrepresentable df z ty) as Hsub
    by apply submseteq_lod_downsample.
  split.
  - etrans; [exact Hsub|]. apply sublist_submseteq, sublist_filter.
  - intros r Hr. apply (elem_of_submseteq _ _ _ Hr) in Hsub.
    unfold bucket in Hsub. apply list_elem_of_filter in Hsub. tauto.
Qed.

(** *** What chain collapsing drops *)

Lemma children_of_row tile_df r :
  r ∈ tile_df ->
  children_of (foldl (add_row (list_to_set (taxid <$> tile_df))) ∅ tile_df)
              (taxid r)
  = if 0 <=? taxid r then child_rows tile_df (taxid r) else [].
Proof.
  intros Hr. rewrite children_of_tile.
  rewrite bool_decide_eq_true_2; [by rewrite andb_true_r|].
  apply elem_of_list_to_set, list_elem_of_fmap. by exists r.
Qed.

(** X21: chain collapsing only drops the middle of a chain: a row of the
    tile that is missing after the collapse has exactly one child row in
    the tile, and that child has exactly one child row itself; and rows
    are only dropped from tiles over the budget. *)
Theorem collapse_chains_drops_only_mid_chain tile_df r :
  r ∈ tile_df -> r ∉ collapse_chains tile_df ->
  MAX_NODES_PER_TILE < len tile_df /\
  exists c, child_rows tile_df (taxid r) = [c] /\
            length (child_rows tile_df c) = 1%nat.
Proof.
  intros Hr Hdrop.
  assert (MAX_NODES_PER_TILE < len tile_df) as Hover.
  { unfold collapse_chains in Hdrop.
    destruct (Z.leb_spec (len tile_df) MAX_NODES_PER_TILE); [done|lia]. }
  split; [done|].
  rewrite elem_of_collapse_chains in Hdrop by done.
  set (parent_to_children :=
         foldl (add_row (list_to_set (taxid <$> tile_df))) ∅ tile_df) in *.
  assert (kept parent_to_children (taxid r) = false) as Hk.
  { destruct (kept parent_to_children (taxid r)); [|done].
    exfalso. by apply Hdrop. }
  unfold kept in Hk.
  pose proof (children_of_row tile_df r Hr) as Hkids.
  fold parent_to_children in Hkids.
  destruct (children_of parent_to_children (taxid r)) as [|c [|c' cs]] eqn:Hc;
    [done| |done].
  destruct (0 <=? taxid r); [|done].
  exists c. split; [done|].
  assert (c ∈ taxid <$> tile_df) as Hcin.
  { apply (child_rows_taxid tile_df (taxid r)). rewrite <- Hkids.
    apply list_elem_of_here. }
  apply negb_false_iff, Z.eqb_eq in Hk.
  unfold parent_to_children in Hk. rewrite children_of_tile in Hk.
  rewrite (bool_decide_eq_true_2 (c ∈ _)) in Hk by (by apply elem_of_list_to_set).
  rewrite andb_true_r in Hk. destruct (0 <=? c); [|done].
  unfold len in Hk. lia.
Qed.

Lemma collapse_chains_drops_only_mid_chain_witness :
  plain_row 1 0 ∈ chain_tile /\ plain_row 1 0 ∉ collapse_chains chain_tile /\
  MAX_NODES_PER_TILE < len chain_tile /\
  exists c, child_rows chain_tile (taxid (plain_row 1 0)) = [c] /\
            length (child_rows chain_tile c) = 1%nat.
Proof.
  assert (plain_row 1 0 ∈ chain_tile) as Hin.
  { apply plain_row_in_chain_tile.
    apply list_elem_of_further. apply list_elem_of_here. }
  assert (plain_row 1 0 ∉ collapse_chains chain_tile) as Hdrop.
  { intros Hkeep.
    apply elem_of_collapse_chains in Hkeep as [_ Hk];
      [|exact chain_tile_over_budget].
    destruct chain_tile_children as (H1 & H2 & H3 & H4 & _).
    destruct (kept_on_chain chain_tile 1 2 3 4) as (Hka & _);
      [lia|lia|lia|exact H1|exact H2|exact H3|exact H4|].
    assert (kept (foldl (add_row (list_to_set (taxid <$> chain_tile))) ∅
                    chain_tile) 1 = true) as Hk1 by exact Hk.
    rewrite Hka in Hk1; [discriminate|].
    apply list_elem_of_fmap. exists (plain_row 1 0).
    split; [reflexivity|exact Hin]. }
  split; [exact Hin|]. split; [exact Hdrop|].
  exact (collapse_chains_drops_only_mid_chain chain_tile (plain_row 1 0) Hin Hdrop).
Defined.

(** *** The size of an aggregated tile *)

Lemma length_every_nth {A} (step skip : nat) (l : list A) :
  (skip < step)%nat ->
  length (every_nth step skip l) = ((length l + step - 1 - skip) / step)%nat.
Proof.
  revert skip. induction l as [|r l IH]; intros skip Hskip.
  - cbn [every_nth length]. symmetry. apply Nat.div_small. lia.
  - destruct skip as [|k]; cbn [every_nth length].
    + rewrite IH by lia. transitivity (S (length l / step)).
      * do 2 f_equal. lia.
      * assert (((length l + 1 * step) / step = length l / step + 1)%nat) as Hd
          by (rewrite Nat.div_add; lia).
        rewrite <- Nat.add_1_r, <- Hd. f_equal. lia.
    + rewrite IH by lia. f_equal. lia.
Qed.

Lemma len_head_exact {A} (n : Z) (l : list A) :
  0 <= n <= len l -> len (head n l) = n.
Proof.
  intros Hn. unfold head, len in *. destruct (Z.leb_spec 0 n); [|lia].
  rewrite length_take_le by lia. lia.
Qed.

Lemma len_sample data take_from :
  0 <= take_from <= len data -> len (sample data take_from) = take_from.
Proof.
  intros Hn. unfold sample.
  destruct (Z.leb_spec take_from 0); [unfold len; simpl; lia|].
  destruct (Z.leb_spec (len data) take_from); [lia|].
  apply len_head_exact. split; [lia|].
  unfold iloc_step, len in *.
  set (n := length data) in *. set (q := Z.of_nat n / take_from).
  assert (1 <= q) as Hq by (apply Z.div_le_lower_bound; lia).
  assert (take_from * q <= Z.of_nat n) as Hmul by (apply Z.mul_div_le; lia).
  rewrite Z.max_r by lia.
  rewrite length_every_nth by lia.
  assert ((Z.to_nat q * Z.to_nat take_from <= n)%nat) as Hnat.
  { rewrite <- Z2Nat.inj_mul by lia. lia. }
  assert ((Z.to_nat take_from
           <= (n + Z.to_nat q - 1 - 0) / Z.to_nat q)%nat) as Hdiv.
  { apply Nat.div_le_lower_bound; lia. }
  fold n. apply Nat2Z.inj_le in Hdiv.
  rewrite Z2Nat.id in Hdiv by lia. exact Hdiv.
Qed.

Lemma length_filter_split {A} (P Q : A -> Prop)
    `{!forall x, Decision (P x)} `{!forall x, Decision (Q x)} (l : list A) :
  Forall (fun x => P x <-> ~ Q x) l ->
  (length (filter P l) + length (filter Q l) = length l)%nat.
Proof.
  induction 1 as [|x l Hx _ IH]; [done|].
  destruct (decide (P x)) as [Hp|Hp].
  - rewrite (filter_cons_True P) by done.
    rewrite (filter_cons_False Q) by (by apply Hx). simpl. lia.
  - rewrite (filter_cons_False P) by done.
    rewrite (filter_cons_True Q); [simpl; lia|].
    destruct (decide (Q x)); [done|]. exfalso. by apply Hp, Hx.
Qed.

(** X22: a tile over the budget is cut to the budget exactly: when the
    tile has more than [max_n >= 0] rows, with coverage states that are
    not negative, [aggregate_subtrees] returns exactly [max_n] rows. *)
Theorem aggregate_subtrees_fills_budget tile_df max_n :
  0 <= max_n < len tile_df ->
  Forall (fun r => 0 <= coverage_state r) tile_df ->
  len (aggregate_subtrees tile_df max_n) = max_n.
Proof.
  intros Hn Hcov. unfold aggregate_subtrees.
  destruct (Z.leb_spec (len tile_df) max_n); [lia|].
  set (df := sort_values tile_df).
  assert (len df = len tile_df) as Hdf.
  { unfold len, df. by rewrite (sort_values_Permutation tile_df). }
  set (structural := filter (fun r => depth r <= 8) df).
  set (rest := filter (fun r => depth r > 8) df).
  assert (len structural + len rest = len df) as Hsplit.
  { unfold len.
    pose proof (length_filter_split (fun r => depth r <= 8)
                  (fun r => depth r > 8) df) as Hs.
    fold structural rest in Hs. rewrite <- Hs; [lia|].
    apply Forall_forall. intros r _. lia. }
  destruct (Z.leb_spec max_n (len structural)).
  { apply len_head_exact. lia. }
  set (with_data := filter (fun r => coverage_state r > 0) rest).
  set (without_data := filter (fun r => coverage_state r = 0) rest).
  assert (len with_data + len without_data = len rest) as Hsplit2.
  { unfold len.
    pose proof (length_filter_split (fun r => coverage_state r > 0)
                  (fun r => coverage_state r = 0) rest) as Hs.
    fold with_data without_data in Hs. rewrite <- Hs; [lia|].
    apply Forall_forall. intros r Hr.
    assert (r ∈ tile_df) as Hrt.
    { unfold rest in Hr. apply list_elem_of_filter in Hr as [_ Hr].
      unfold df in Hr. by rewrite (sort_values_Permutation tile_df) in Hr. }
    rewrite Forall_forall in Hcov. specialize (Hcov r Hrt). lia. }
  assert (0 <= len with_data) by (unfold len; lia).
  assert (0 <= len without_data) by (unfold len; lia).
  set (take_from_with := Z.min (len with_data) (max_n - len structural)).
  set (take_from_without :=
         Z.max 0 (max_n - len structural - take_from_with)).
  assert (len (sample with_data take_from_with) = take_from_with) as Hw
    by (apply len_sample; unfold take_from_with; lia).
  assert (len (sample without_data take_from_without) = take_from_without)
    as Hwo by (apply len_sample; unfold take_from_without, take_from_with; lia).
  apply len_head_exact. unfold len in *. rewrite !length_app.
  unfold take_from_without, take_from_with in *. lia.
Qed.

Lemma aggregate_subtrees_fills_budget_witness :
  0 <= 2 < len [plain_row 1 0; plain_row 2 1; plain_row 3 2] /\
  Forall (fun r => 0 <= coverage_state r)
         [plain_row 1 0; plain_row 2 1; plain_row 3 2] /\
  len (aggregate_subtrees [plain_row 1 0; plain_row 2 1; plain_row 3 2] 2) = 2.
Proof.
  assert (0 <= 2 < len [plain_row 1 0; plain_row 2 1; plain_row 3 2]) as Hn
    by (unfold len; simpl; lia).
  assert (Forall (fun r => 0 <= coverage_state r)
            [plain_row 1 0; plain_row 2 1; plain_row 3 2]) as Hcov
    by (repeat constructor; simpl; lia).
  split; [exact Hn|]. split; [exact Hcov|].
  exact (aggregate_subtrees_fills_budget _ 2 Hn Hcov).
Defined.

(** *** Row indices across zoom levels *)

Lemma truncate_scaled (q : Q) (m : Z) :
  truncate (q * inject_Z m)%Q =
  if 0 <=? Qnum q * m then (Qnum q * m) / Zpos (Qden q)
  else - ((- (Qnum q * m)) / Zpos (Qden q)).
Proof.
  destruct q as [n d]. unfold truncate, Qle_bool, Qceiling, Qfloor.
  cbn [Qmult inject_Z Qnum Qden Qopp].
  rewrite Pos.mul_1_r, Z.mul_1_r.
  change (0 * Z.pos d) with 0. reflexivity.
Qed.

Lemma truncate_doubled (q : Q) (m : Z) :
  0 < m ->
  let a := truncate (q * inject_Z m)%Q in
  let b := truncate (q * inject_Z (2 * m))%Q in
  (0 <= a <= b /\ b / 2 = a) \/ (b <= a <= 0).
Proof.
  intros Hm a b. subst a b. rewrite !truncate_scaled.
  destruct q as [n d]. cbn [Qnum Qden].
  set (k := n * m). replace (n * (2 * m)) with (2 * k) by (unfold k; lia).
  assert (0 < Z.pos d) as Hd by lia. set (D := Z.pos d) in *. clearbody D.
  destruct (Z.leb_spec 0 k) as [Hk|Hk].
  - left. destruct (Z.leb_spec 0 (2 * k)); [|lia].
    assert (2 * k / D / 2 = k / D) as Hhalf.
    { rewrite Z.div_div by lia.
      rewrite (Z.mul_comm 2 k), Z.div_mul_cancel_r by lia. done. }
    split; [|exact Hhalf]. split; [apply Z.div_pos; lia|].
    apply Z.div_le_mono; lia.
  - right. destruct (Z.leb_spec 0 (2 * k)); [lia|].
    assert (0 <= - k / D) by (apply Z.div_pos; lia).
    assert (- k / D <= - (2 * k) / D) by (apply Z.div_le_mono; lia).
    lia.
Qed.

(** X23: the rows of consecutive zoom levels nest: the row index of a
    node at zoom z is half its row index at zoom z + 1, rounded down, so
    row ty of zoom z splits into the rows 2 ty and 2 ty + 1 of the next
    zoom (for a product [y * 2^(z+1)] that the int64 cast can hold). *)
Theorem tile_y_nested (cast_unrepresentable : Q -> Z) (r : row) (z : Z) :
  0 <= z ->
  representable (y r * inject_Z (2 ^ (z + 1)))%Q = true ->
  tile_y cast_unrepresentable r (z + 1) / 2 = tile_y cast_unrepresentable r z.
Proof.
  intros Hz Hrep.
  assert (0 < 2 ^ z) as Hpow by (apply Z.pow_pos_nonneg; lia).
  assert (2 ^ (z + 1) = 2 * 2 ^ z) as Hsucc
    by (rewrite Z.pow_add_r by lia; change (2 ^ 1) with 2; lia).
  unfold tile_y, astype_int64. cbv zeta. rewrite Hrep.
  rewrite Hsucc in *. set (m := 2 ^ z) in *. clearbody m.
  pose proof (truncate_doubled (y r) m Hpow) as Hdbl. cbv zeta in Hdbl.
  unfold representable in *.
  set (a := truncate (y r * inject_Z m)%Q) in *.
  set (b := truncate (y r * inject_Z (2 * m))%Q) in *. clearbody a b.
  apply andb_prop in Hrep as [Hlo Hhi].
  apply Z.leb_le in Hlo, Hhi.
  assert (INT64_MIN <= 0 <= INT64_MAX) as Hzero
    by (unfold INT64_MIN, INT64_MAX; lia).
  assert ((INT64_MIN <=? a) && (a <=? INT64_MAX) = true) as ->.
  { apply andb_true_intro. split; apply Z.leb_le; lia. }
  unfold clip. destruct Hdbl as [[Ha Hhalf]|Hneg].
  - rewrite (Z.max_l b 0), (Z.max_l a 0) by lia.
    destruct (Z.le_gt_cases b (2 * m - 1)) as [Hb|Hb].
    + rewrite Z.min_l by lia. rewrite Hhalf.
      rewrite Z.min_l; [done|]. subst a.
      assert (b / 2 < m) by (apply Z.div_lt_upper_bound; lia). lia.
    + rewrite Z.min_r by lia.
      assert ((2 * m - 1) / 2 = m - 1) as ->.
      { symmetry. apply (Z.div_unique _ _ _ 1); lia. }
      rewrite Z.min_r; [done|]. subst a.
      apply Z.div_le_lower_bound; lia.
  - rewrite (Z.max_r b 0), (Z.max_r a 0) by lia.
    rewrite !Z.min_l by lia. done.
Qed.

Lemma tile_y_nested_witness :
  0 <= 3 /\
  representable (y (plain_row 1 0) * inject_Z (2 ^ (3 + 1)))%Q = true /\
  tile_y (fun _ => INT64_MIN) (plain_row 1 0) (3 + 1) / 2 =
  tile_y (fun _ => INT64_MIN) (plain_row 1 0) 3.
Proof.
  assert (representable (y (plain_row 1 0) * inject_Z (2 ^ (3 + 1)))%Q = true)
    as Hrep by reflexivity.
  split; [lia|]. split; [exact Hrep|].
  apply (tile_y_nested (fun _ => INT64_MIN) (plain_row 1 0) 3); [lia|exact Hrep].
Defined.

End TilesMore.

Section GeoJSONFacts.
Import TreeBuilder TreeShape Layout LayoutShape GeoJSON.

(** *** Zoom thresholds of the exported features *)





(** *** The edges of a tree *)

Lemma elem_of_collect_edges_node id name rank kids e :
  e ∈ collect_edges (Node id name rank kids) <->
  exists k, k ∈ kids /\
    ((truthy id && truthy (tree_id k) = true /\ e = (id, tree_id k)) \/
     e ∈ collect_edges k).
Proof.
  cbn [collect_edges]. split.
  - intros He. apply list_elem_of_In, in_concat in He as (l & Hl & He).
    apply list_elem_of_In in Hl. apply list_elem_of_In in He.
    apply list_elem_of_fmap in Hl as (k & -> & Hk). exists k. split; [done|].
    apply elem_of_app in He as [He|He]; [left|by right].
    destruct (truthy id && truthy (tree_id k)); [|by apply elem_of_nil in He].
    apply list_elem_of_singleton in He. done.
  - intros (k & Hk & He). apply list_elem_of_In, in_concat.
    exists ((if truthy id && truthy (tree_id k) then [(id, tree_id k)] else [])
            ++ collect_edges k).
    split; apply list_elem_of_In.
    + apply list_elem_of_fmap. by exists k.
    + apply elem_of_app. destruct He as [[-> ->]|He]; [left|by right].
      apply list_elem_of_here.
Qed.

Lemma tree_id_in_tree_ids t : tree_id t ∈ tree_ids t.
Proof. destruct t. apply list_elem_of_here. Qed.

Lemma collect_edges_ids t p c :
  (p, c) ∈ collect_edges t -> p ∈ tree_ids t /\ c ∈ tree_ids t.
Proof.
  induction t as [id name rank kids IH] using tree_nested_ind.
  intros He. apply elem_of_collect_edges_node in He as (k & Hk & He).
  rewrite Forall_forall in IH. rewrite !elem_of_tree_ids_node.
  destruct He as [[_ [= -> ->]]|He].
  - split; [by left|right]. exists k. split; [done|apply tree_id_in_tree_ids].
  - destruct (IH k Hk He) as [? ?]. split; right; by exists k.
Qed.

Lemma collect_edges_children t :
  Forall (fun i => truthy i = true) (tree_ids t) ->
  snd <$> collect_edges t = tail (tree_ids t).
Proof.
  induction t as [id name rank kids IH] using tree_nested_ind.
  intros Hids. cbn [tree_ids collect_edges tail] in *.
  apply Forall_cons in Hids as [Hid Hids]. rewrite Hid. cbn [andb].
  induction kids as [|k kids IHk]; [done|].
  apply Forall_cons in IH as [IHhead IHtail].
  cbn [fmap list_fmap concat] in *.
  apply Forall_app in Hids as [Hk Hkids].
  rewrite fmap_app. f_equal; [|by apply IHk].
  assert (truthy (tree_id k) = true) as ->.
  { rewrite Forall_forall in Hk. apply Hk, tree_id_in_tree_ids. }
  rewrite fmap_app, (IHhead Hk). by destruct k.
Qed.

Lemma make_node_edges info children limit nid t :
  make_node limit info children nid = Some t ->
  tree_id t = nid /\
  forall p c, (p, c) ∈ collect_edges t -> child_rel children p c.
Proof.
  revert nid t. induction limit as [|limit IH]; intros nid t Hrun; [done|].
  simpl in Hrun.
  destruct (mapM (make_node limit info children)
                 (sorted (children_of children nid))) as [kids|] eqn:Hkids;
    [|done].
  injection Hrun as <-. apply mapM_Some_1 in Hkids. split; [done|].
  intros p c He. apply elem_of_collect_edges_node in He as (k & Hk & He).
  apply list_elem_of_lookup in Hk as [i Hi].
  destruct (Forall2_lookup_r _ _ _ _ _ Hkids Hi) as (kid & Hkid & Hmk).
  destruct (IH kid k Hmk) as [Hroot Hbelow].
  destruct He as [[_ [= -> ->]]|He]; [|by apply Hbelow].
  unfold child_rel. rewrite Hroot. apply elem_of_sorted.
  by eapply list_elem_of_lookup_2.
Qed.

(** X25: the edges collected from a built tree are edges of the
    adjacency between ids of the tree, and when no id of the tree is the
    empty string the child ids of the edges are the ids of the tree
    without the root, in the order of the parent-first walk: one edge per
    node below the root. *)
Theorem collect_edges_built limit rows root_id t info r :
  build_tree limit rows root_id = Built t info r ->
  (forall p c, (p, c) ∈ collect_edges t ->
     child_rel (children_map rows) p c /\ p ∈ tree_ids t /\ c ∈ tree_ids t) /\
  (Forall (fun i => truthy i = true) (tree_ids t) ->
   snd <$> collect_edges t = tail (tree_ids t) /\
   (length (collect_edges t) + 1 = length (tree_ids t))%nat).
Proof.
  intros Hb. apply build_tree_built in Hb as (_ & Hmk & _). split.
  - intros p c He. split; [|by apply collect_edges_ids].
    by apply (proj2 (make_node_edges _ _ _ _ _ Hmk)).
  - intros Hids. pose proof (collect_edges_children t Hids) as Hsnd.
    split; [exact Hsnd|].
    rewrite <- (length_fmap snd), Hsnd. destruct t. simpl. lia.
Qed.

Lemma collect_edges_built_witness :
  build_tree 10 small_hierarchy (Some "2759") =
  Built (Node "2759" "Eukaryota" "domain"
           [Node "33090" "Viridiplantae" "kingdom" [];
            Node "33154" "Opisthokonta" "clade" []])
        (node_info small_hierarchy) "2759" /\
  collect_edges (Node "2759" "Eukaryota" "domain"
                   [Node "33090" "Viridiplantae" "kingdom" [];
                    Node "33154" "Opisthokonta" "clade" []])
  = [("2759", "33090"); ("2759", "33154")] /\
  (forall p c,
     (p, c) ∈ collect_edges (Node "2759" "Eukaryota" "domain"
                               [Node "33090" "Viridiplantae" "kingdom" [];
                                Node "33154" "Opisthokonta" "clade" []]) ->
     child_rel (children_map small_hierarchy) p c).
Proof.
  split; [exact build_small_again|]. split; [reflexivity|].
  intros p c He.
  exact (proj1 (proj1 (collect_edges_built 10 small_hierarchy (Some "2759") _ _ _
                         build_small_again) p c He)).
Defined.

(** *** Branch lines *)

Lemma lookup_nodes_by_id_acc (nodes : list emitted) (by_id : gmap string emitted) k :
  is_Some (foldl (fun by_id n => <[n_id n := n]> by_id) by_id nodes !! k) <->
  is_Some (by_id !! k) \/ k ∈ n_id <$> nodes.
Proof.
  revert by_id. induction nodes as [|n nodes IH]; intros by_id.
  - cbn [foldl fmap list_fmap]. split; [by left|].
    intros [?|Hk]; [done|by apply elem_of_nil in Hk].
  - cbn [foldl fmap list_fmap]. rewrite IH, elem_of_cons.
    destruct (decide (k = n_id n)) as [->|Hne].
    + rewrite lookup_insert_eq. split; [intros _; right; by left|].
      intros _. left. by eexists.
    + rewrite lookup_insert_ne by done. tauto.
Qed.

Lemma lookup_nodes_by_id nodes k :
  k ∈ n_id <$> nodes -> is_Some (nodes_by_id nodes !! k).
Proof.
  intros Hk. unfold nodes_by_id. apply lookup_nodes_by_id_acc. by right.
Qed.

Lemma node_ids_of_tree t : node_ids (of_tree t) = tree_ids t.
Proof.
  induction t as [id name rank kids IH] using tree_nested_ind.
  cbn [of_tree node_ids tree_ids]. f_equal. rewrite <- list_fmap_compose.
  f_equal. apply list_fmap_ext. intros i k Hk.
  rewrite Forall_forall in IH. apply IH. by eapply list_elem_of_lookup_2.
Qed.

(** X26: no branch is skipped when the layout of a tree is exported with
    the edges of the same tree: every collected edge finds the records of
    both its ends, so there is one branch line per edge, in the order of
    the edges, carrying the id of the child. *)
Theorem branch_lines_complete
    (t : tree) (root_x root_y root_alpha root_ray : R) :
  b_id <$> branch_lines (radial_layout (of_tree t) root_x root_y root_alpha
                           root_ray).1 (collect_edges t)
  = snd <$> collect_edges t.
Proof.
  unfold radial_layout, layout_tree. cbn [fst].
  set (nodes := _collect _).
  assert (n_id <$> nodes = tree_ids t) as Hids
    by (unfold nodes; rewrite collect_ids; apply node_ids_of_tree).
  assert (Forall (fun e => e.1 ∈ tree_ids t /\ e.2 ∈ tree_ids t)
                 (collect_edges t)) as Hedges.
  { apply Forall_forall. intros [p c] He. by apply collect_edges_ids. }
  unfold branch_lines. cbv zeta.
  induction Hedges as [|[p c] edges [Hp Hc] _ IH]; [done|].
  cbn [omap list_omap fmap list_fmap snd fst] in *.
  rewrite <- Hids in Hp, Hc.
  destruct (lookup_nodes_by_id nodes p Hp) as [pn ->].
  destruct (lookup_nodes_by_id nodes c Hc) as [cn ->].
  cbn [fmap list_fmap b_id]. by rewrite IH.
Qed.

(** *** Polygon rings *)

Local Open Scope R_scope.





End GeoJSONFacts.

Section TreeLayoutFacts.
Import Coverage TreeLayout.

Lemma filter_all {A} (P : A -> Prop) `{!forall x, Decision (P x)} (l : list A) :
  Forall P l -> filter P l = l.
Proof.
  induction 1 as [|x l Hx _ IH]; [done|].
  by rewrite filter_cons_True, IH.
Qed.

Lemma kids_of_children_of_rows df p c :
  c ∈ kids_of (children_of_rows df) p <-> row_edge df p c.
Proof.
  unfold children_of_rows, row_edge. rewrite kids_of_foldl_add_child.
  unfold kids_of at 1. rewrite lookup_empty. cbn [default]. split.
  - intros [Hc|Hc]; [by apply elem_of_nil in Hc|].
    apply list_elem_of_fmap in Hc as ([p' c'] & [= -> ->] & Hrow). exact Hrow.
  - intros Hrow. right. apply list_elem_of_fmap. by exists (TaxRow p c).
Qed.

Lemma reach_inv_skip children root n stack (seen : gset Z) order :
  reach_inv children root (n :: stack) seen order -> n ∈ seen ->
  reach_inv children root stack seen order.
Proof.
  intros (Hseen & Hreach & Hroot & Hkids) Hn. split; [exact Hseen|].
  split; [|split].
  - intros x [Hx|Hx]; apply Hreach; [left; apply elem_of_cons; by right|by right].
  - destruct Hroot as [Hr|Hr]; [|by right].
    apply elem_of_cons in Hr as [->|Hr]; [by right|by left].
  - intros m c Hm Hc. destruct (Hkids m c Hm Hc) as [?|Hin]; [by left|].
    apply elem_of_cons in Hin as [->|Hin]; [by left|by right].
Qed.

Lemma reach_inv_step children root n stack (seen : gset Z) order :
  reach_inv children root (n :: stack) seen order -> n ∉ seen ->
  reach_inv children root
            (push_kids ({[n]} ∪ seen) stack (kids_of children n))
            ({[n]} ∪ seen) (order ++ [n]).
Proof.
  intros (Hseen & Hreach & Hroot & Hkids) Hn.
  assert (rtc (fun p c => c ∈ kids_of children p) root n) as Hrn
    by (apply Hreach; left; apply list_elem_of_here).
  split; [|split; [|split]].
  - intros x. rewrite elem_of_union, elem_of_singleton, elem_of_app,
      list_elem_of_singleton, Hseen. tauto.
  - intros x [Hx|Hx].
    + apply elem_of_push_kids in Hx as [Hx|[Hx _]].
      * apply Hreach. left. apply elem_of_cons. by right.
      * eapply rtc_r; [exact Hrn|exact Hx].
    + apply elem_of_union in Hx as [Hx|Hx].
      * apply elem_of_singleton in Hx as ->. exact Hrn.
      * apply Hreach. by right.
  - destruct Hroot as [Hr|Hr].
    + apply elem_of_cons in Hr as [->|Hr].
      * right. apply elem_of_union. left. by apply elem_of_singleton.
      * left. apply elem_of_push_kids. by left.
    + right. apply elem_of_union. by right.
  - intros m c Hm Hc.
    destruct (decide (c ∈ {[n]} ∪ seen)) as [Hin|Hout]; [by left|right].
    apply elem_of_push_kids. apply elem_of_union in Hm as [Hm|Hm].
    + apply elem_of_singleton in Hm as ->. by right.
    + left. destruct (Hkids m c Hm Hc) as [Hcs|Hcs].
      * exfalso. apply Hout, elem_of_union. by right.
      * apply elem_of_cons in Hcs as [->|Hcs]; [|done].
        exfalso. apply Hout, elem_of_union. left. by apply elem_of_singleton.
Qed.

Lemma reach_inv_final children root fuel stack (seen : gset Z) order o :
  reach_inv children root stack seen order ->
  visit fuel children stack seen order = Some o ->
  exists seen', reach_inv children root [] seen' o.
Proof.
  revert stack seen order.
  induction fuel as [|fuel IH]; intros stack seen order Hinv Hrun; [done|].
  simpl in Hrun. destruct stack as [|n stack].
  - injection Hrun as <-. by exists seen.
  - destruct (decide (n ∈ seen)) as [Hin|Hin].
    + eapply IH; [|exact Hrun]. by eapply reach_inv_skip.
    + eapply IH; [|exact Hrun]. by apply reach_inv_step.
Qed.

Lemma reach_inv_init children root : reach_inv children root [root] ∅ [].
Proof.
  split; [|split; [|split]].
  - intros x. rewrite elem_of_nil. set_solver.
  - intros x [Hx|Hx]; [|set_solver].
    apply list_elem_of_singleton in Hx as ->. apply rtc_refl.
  - left. apply list_elem_of_here.
  - intros n c Hn. set_solver.
Qed.

(** The traversal from a root always ends, whatever the rows (cycles
    and repeated rows included), and marks what can be reached. *)
Lemma visit_from_root children root :
  exists order,
    visit (visit_fuel children [root]) children [root] ∅ [] = Some order /\
    (forall x, x ∈ order <-> rtc (fun p c => c ∈ kids_of children p) root x).
Proof.
  destruct (visit_terminates children (visit_fuel children [root]) [root] ∅ [])
    as [order Hrun].
  { unfold visit_fuel. rewrite pending_empty. lia. }
  exists order. split; [exact Hrun|].
  destruct (reach_inv_final _ _ _ _ _ _ _ (reach_inv_init children root) Hrun)
    as (seen' & Hseen & Hreach & Hroot & Hkids).
  intros x. split.
  - intros Hx. apply Hreach. right. by apply Hseen.
  - intros Hx. apply Hseen. revert x Hx.
    apply (rtc_ind_r (fun x => x ∈ seen')).
    + destruct Hroot as [Hr|Hr]; [by apply elem_of_nil in Hr|done].
    + intros a b _ Hab IH.
      destruct (Hkids a b IH Hab) as [?|Hb]; [done|by apply elem_of_nil in Hb].
Qed.

(** X28: [extract_subtree] returns for every frame and root, also when
    the rows make a cycle or repeat; its set is exactly the taxids that
    can be reached from the root along rows (parent, child); the keys of
    its children map are that set, and every node keeps all its children:
    the test [c in subtree] drops none. *)
Theorem extract_subtree_reachable (df : list tax_row) (root : Z) :
  exists sub_children subtree,
    extract_subtree df root = Some (sub_children, subtree) /\
    (forall x, x ∈ subtree <-> rtc (row_edge df) root x) /\
    (forall n, n ∈ subtree ->
       sub_children !! n = Some (kids_of (children_of_rows df) n)) /\
    (forall n, n ∉ subtree -> sub_children !! n = None).
Proof.
  unfold extract_subtree. cbv zeta.
  destruct (visit_from_root (children_of_rows df) root) as (order & -> & Hreach).
  cbn [mbind option_bind]. eexists _, _. split; [reflexivity|].
  set (subtree := (list_to_set order : gset Z)).
  assert (forall x, x ∈ subtree <->
            rtc (fun p c => c ∈ kids_of (children_of_rows df) p) root x)
    as Hsub by (intros x; unfold subtree; by rewrite elem_of_list_to_set).
  split; [|split].
  - intros x. rewrite Hsub. split; apply rtc_subrel; intros p c Hpc;
      by apply kids_of_children_of_rows.
  - intros n Hn.
    assert (filter (fun c => c ∈ subtree) (kids_of (children_of_rows df) n)
            = kids_of (children_of_rows df) n) as Hall.
    { apply filter_all, Forall_forall. intros c Hc. apply Hsub.
      eapply rtc_r; [by apply Hsub|exact Hc]. }
    apply lookup_set_to_map; [by intros ? ? _ _ ?|].
    exists n. split; [exact Hn|]. by rewrite Hall.
  - intros n Hn. apply eq_None_not_Some. intros [ks Hks].
    apply lookup_set_to_map in Hks as (m & Hm & [= -> _]); [done|].
    by intros ? ? _ _ ?.
Qed.

End TreeLayoutFacts.

Section RankStatsFacts.
Import Coverage RankStats.

(** X29: the two classifiers of a species do not agree: the state of
    [_classify_species] sits at index 5 - species_state(...) of
    STATE_ORDER exactly when the species has an assembly or no
    annotation.  For an annotation without assembly [_classify_species]
    ignores the annotation (reads_only or no_data) while [species_state]
    gives one of its two best codes (4 or 5). *)
Theorem classify_species_and_species_state
    (has_assembly has_annotation has_reads : bool) :
  exists idx,
    index (_classify_species has_assembly has_annotation has_reads) STATE_ORDER
    = Some idx /\
    (species_state has_assembly has_annotation has_reads = 5 - Z.of_nat idx
     <-> has_assembly = true \/ has_annotation = false) /\
    (has_assembly = false -> has_annotation = true ->
     _classify_species has_assembly has_annotation has_reads
     = _classify_species false false has_reads /\
     (4 <= idx)%nat /\
     4 <= species_state has_assembly has_annotation has_reads).
Proof.
  destruct has_assembly, has_annotation, has_reads;
    (eexists; split; [reflexivity|]); vm_compute;
    (split; [split; [intros ?; first [by left|by right|discriminate]
                    |intros [?|?]; first [reflexivity|discriminate]]
            |intros ? ?; first [discriminate|idtac]]).
  - split; [reflexivity|]. split; [lia|discriminate].
  - split; [reflexivity|]. split; [lia|discriminate].
Qed.

(** *** Lineages *)

Lemma lineage_loop_returns nodes fuel current (seen : gset Z) lineage :
  (size (dom nodes ∖ seen) < fuel)%nat ->
  is_Some (lineage_loop fuel nodes current seen lineage).
Proof.
  revert current seen lineage.
  induction fuel as [|fuel IH]; intros current seen lineage Hlt; [lia|].
  cbn [lineage_loop].
  destruct (bool_decide (current <> 0) && bool_decide (current ∉ seen)) eqn:Hgo;
    [|by eexists].
  apply andb_prop in Hgo as [_ Hnew]. apply bool_decide_eq_true in Hnew.
  destruct (nodes !! current) as [node|] eqn:Hnode; [|by eexists].
  apply IH.
  assert (current ∈ dom nodes ∖ seen) as Hin.
  { apply elem_of_difference. split; [|done]. apply elem_of_dom. by eexists. }
  assert (dom nodes ∖ ({[current]} ∪ seen) ⊂ dom nodes ∖ seen) as Hsub
    by set_solver.
  apply subset_size in Hsub. lia.
Qed.

Lemma lineage_loop_entries nodes taxid fuel current (seen : gset Z) lineage res :
  rtc (parent_step nodes) taxid current ->
  (forall r t, lineage !! r = Some t -> lineage_entry nodes taxid r t) ->
  lineage_loop fuel nodes current seen lineage = Some res ->
  forall r t, res !! r = Some t -> lineage_entry nodes taxid r t.
Proof.
  revert current seen lineage.
  induction fuel as [|fuel IH]; intros current seen lineage Hreach Hlin Hrun;
    [done|].
  cbn [lineage_loop] in Hrun.
  destruct (bool_decide (current <> 0) && bool_decide (current ∉ seen));
    [|by injection Hrun as <-].
  destruct (nodes !! current) as [node|] eqn:Hnode; [|by injection Hrun as <-].
  eapply IH; [| |exact Hrun].
  - eapply rtc_r; [exact Hreach|]. by exists node.
  - intros r t. destruct (bool_decide (rank node ∈ target_ranks)) eqn:Hrank;
      [|apply Hlin].
    apply bool_decide_eq_true in Hrank.
    destruct (decide (r = rank node)) as [->|Hne].
    + rewrite lookup_insert_eq. intros [= <-].
      split; [exact Hrank|]. split; [by exists node|exact Hreach].
    + rewrite lookup_insert_ne by done. apply Hlin.
Qed.

(** X30: [get_lineage] returns for every taxid and every [nodes], also
    when the parent links make a cycle; every entry rank -> t of the
    result names one of the five ranks, t has that rank, and t is the
    taxid or one of its ancestors along the parent links. *)
Theorem get_lineage_entries (taxid : Z) (nodes : gmap Z tax_node) :
  exists lineage,
    get_lineage taxid nodes = Some lineage /\
    forall r t, lineage !! r = Some t -> lineage_entry nodes taxid r t.
Proof.
  unfold get_lineage.
  destruct (lineage_loop_returns nodes (S (size nodes)) taxid ∅ ∅)
    as [lineage Hrun].
  { assert (dom nodes ∖ (∅ : gset Z) ⊆ dom nodes) as Hsub by set_solver.
    apply subseteq_size in Hsub. rewrite size_dom in Hsub. lia. }
  exists lineage. split; [exact Hrun|].
  eapply lineage_loop_entries; [apply rtc_refl| |exact Hrun].
  intros r t Hrt. by rewrite lookup_empty in Hrt.
Qed.

End RankStatsFacts.
